(** * pg_regress_postprocess_output: a shallow embedding and its properties

    The script [build-support/pg_regress_postprocess_output.py] rewrites a
    regression-test output file: it strips trailing whitespace, masks UUIDs,
    cuts the file at the [-- YB_DATA_END] marker, removes ASAN/TSAN
    "Suppressions used:" blocks and drops blank lines from the end.

    Python strings are modelled as [list ascii] (one element per character,
    characters restricted to the 8-bit range), the list of lines as a
    [list (list ascii)], list indexing as a checked lookup that can raise
    [IndexError], and the two [while] loops as fuelled iterations of their
    bodies. The file is the list of its characters; it is read as a file
    opened in text mode is read, a carriage return ending a line as a line
    feed does. *)

From Stdlib Require Import Ascii String.
From stdpp Require Import base tactics option list strings.

(** ** Strings *)

Abbreviation str := (list ascii).
Definition s_ (s : string) : str := list_ascii_of_string s.

(** [str.isspace] for one character of the 8-bit range: TAB, LF, VT, FF, CR,
    the separators FS, GS, RS, US, the space, NEL and the no-break space. *)
Definition isspace (c : ascii) : bool :=
  let n := nat_of_ascii c in
  ((9 <=? n) && (n <=? 13)) || ((28 <=? n) && (n <=? 32))
  || (n =? 133) || (n =? 160).

Definition LF : ascii := ascii_of_nat 10.

(** Removal of the longest run of elements satisfying [f] at the front and
    at the back of a list. *)
Fixpoint drop_while {A} (f : A → bool) (l : list A) : list A :=
  match l with
  | [] => []
  | x :: t => if f x then drop_while f t else l
  end.

Definition rdrop_while {A} (f : A → bool) (l : list A) : list A :=
  reverse (drop_while f (reverse l)).

(** [s.lstrip()], [s.rstrip()] and [s.strip()] without argument. *)
Definition lstrip (s : str) : str := drop_while isspace s.
Definition rstrip (s : str) : str := rdrop_while isspace s.
Definition strip (s : str) : str := lstrip (rstrip s).

(** [s[a:b]] and [s[a:]] for non-negative bounds (Python clamps them). *)
Definition slice {A} (a b : nat) (s : list A) : list A := take (b - a) (drop a s).
Definition slice_from {A} (a : nat) (s : list A) : list A := drop a s.

(** ["\n".join(ls)] *)
Fixpoint join_lines (ls : list str) : str :=
  match ls with
  | [] => []
  | [l] => l
  | l :: rest => l ++ LF :: join_lines rest
  end.

Definition CR : ascii := ascii_of_nat 13.

(** What a file opened for reading in text mode, as [open(file_path)] does,
    delivers of the characters of the file: with the default universal
    newlines a carriage return followed by a line feed, and a carriage
    return alone, both come as one line feed. *)
Fixpoint universal_newlines (t : str) : str :=
  match t with
  | [] => []
  | c :: t' =>
      if bool_decide (c = CR) then
        LF :: match t' with
              | c' :: t'' =>
                  if bool_decide (c' = LF) then universal_newlines t''
                  else universal_newlines t'
              | [] => []
              end
      else c :: universal_newlines t'
  end.

(** The text is cut after every line feed, which stays at the end of its
    line; a last line without line feed is kept as it is. *)
Fixpoint split_after_LF (t : str) : list str :=
  match t with
  | [] => []
  | c :: t' =>
      if bool_decide (c = LF) then [c] :: split_after_LF t'
      else match split_after_LF t' with
           | [] => [[c]]
           | l :: ls => (c :: l) :: ls
           end
  end.

(** [input_file.readlines()] on the characters [t] of the file. *)
Definition readlines (t : str) : list str :=
  split_after_LF (universal_newlines t).

(** ** The regular expression of [mask_uuid4s] *)

(** A character class is a union of inclusive ranges; the pattern has one
    class per character, there is no repetition operator left once the
    counted repetitions [{8}], [{4}], ... are unfolded. *)
Definition char_class := list (ascii * ascii).

Definition in_class (cl : char_class) (c : ascii) : bool :=
  existsb (λ r, (nat_of_ascii r.1 <=? nat_of_ascii c)
                && (nat_of_ascii c <=? nat_of_ascii r.2)) cl.

Definition range (lo hi : ascii) : ascii * ascii := (lo, hi).
Definition lit (c : ascii) : char_class := [range c c].
Definition hexdigit : char_class := [range "0" "9"; range "A" "F"; range "a" "f"].
Definition variant : char_class := lit "8" ++ lit "9" ++ lit "A" ++ lit "B" ++ lit "a" ++ lit "b".

(** [[0-9A-Fa-f]{8}-[0-9A-Fa-f]{4}-4[0-9A-Fa-f]{3}-[89ABab][0-9A-Fa-f]{3}-[0-9A-Fa-f]{12}] *)
Definition uuid4_re : list char_class :=
  replicate 8 hexdigit ++ [lit "-"] ++
  replicate 4 hexdigit ++ [lit "-"; lit "4"] ++
  replicate 3 hexdigit ++ [lit "-"; variant] ++
  replicate 3 hexdigit ++ [lit "-"] ++
  replicate 12 hexdigit.

(** Does a prefix of [s] match the pattern [p]? *)
Fixpoint match_here (p : list char_class) (s : str) : bool :=
  match p, s with
  | [], _ => true
  | _ :: _, [] => false
  | cl :: p', c :: s' => if in_class cl c then match_here p' s' else false
  end.

(** The whole of [u] matches [p]. *)
Definition full_match (p : list char_class) (u : str) : Prop :=
  Forall2 (λ cl c, in_class cl c = true) p u.

(** [[m.start() for m in re.finditer(p, s)]]: the scan goes left to right;
    after a match at [pos] it resumes behind the match, so the next
    [length p - 1] characters are passed over ([skip] counts them). [pos] is
    the index in the whole string of the first character of [s]. *)
Fixpoint finditer_from (p : list char_class) (pos skip : nat) (s : str) : list nat :=
  match s with
  | [] => []
  | _ :: t =>
      match skip with
      | S k => finditer_from p (S pos) k t
      | 0 =>
          if match_here p s
          then pos :: finditer_from p (S pos) (pred (length p)) t
          else finditer_from p (S pos) 0 t
      end
  end.

Definition finditer_starts (p : list char_class) (s : str) : list nat :=
  finditer_from p 0 0 s.

(** ** [mask_uuid4s] *)

Definition UUID_MASK : str := s_ "********-****-4***-****-************".

(** The second [for] loop of [mask_uuid4s]: [prev_index] and the string
    built so far are threaded through the start indices. *)
Fixpoint mask_loop (unmasked_line : str) (uuid_start_indices : list nat)
    (prev_index : nat) (line_copy : str) : nat * str :=
  match uuid_start_indices with
  | [] => (prev_index, line_copy)
  | i :: rest =>
      mask_loop unmasked_line rest
        (i + length UUID_MASK)
        (line_copy ++ (slice prev_index i unmasked_line ++ UUID_MASK))
  end.

Definition mask_uuid4s (unmasked_line : str) : str :=
  let uuid_start_indices := finditer_starts uuid4_re unmasked_line in
  let '(prev_index, line_copy) :=
    mask_loop unmasked_line uuid_start_indices 0 [] in
  line_copy ++ slice_from prev_index unmasked_line.

(** ** Exceptions and loops *)

(** A computation returns, raises [IndexError] (a list index out of range)
    or runs out of the fuel given to a [while] loop. *)
Inductive outcome (A : Type) : Type :=
  | Done (a : A)
  | IndexError
  | OutOfFuel.
Arguments Done {A} a.
Arguments IndexError {A}.
Arguments OutOfFuel {A}.

Definition bind {A B} (m : outcome A) (k : A → outcome B) : outcome B :=
  match m with
  | Done a => k a
  | IndexError => IndexError
  | OutOfFuel => OutOfFuel
  end.

Notation "x ←' m ; k" := (bind m (λ x, k))
  (at level 20, m at level 100, k at level 200, right associativity,
   format "'[v' x  ←'  m ; '/' k ']'").

(** [l[i]] for a non-negative [i]. *)
Definition getitem {A} (l : list A) (i : nat) : outcome A :=
  match l !! i with
  | Some x => Done x
  | None => IndexError
  end.

(** ** The main loop *)

Definition SANITIZER_SEPARATOR_LINE : str := replicate 53 "-"%char.
Definition YB_DATA_END : str := s_ "-- YB_DATA_END".
Definition SUPPRESSIONS_USED : str := s_ "Suppressions used:".

(** [not line.strip()] *)
Definition is_blank (line : str) : bool := bool_decide (strip line = []).

(** The variables of the loop. *)
Record loop_state : Type := LoopState {
  i : nat;
  skipping : bool;
  just_stopped_skipping : bool;
  result_lines : list str
}.

Definition initial : loop_state :=
  {| i := 0; skipping := false; just_stopped_skipping := false;
     result_lines := [] |}.

(** What one iteration does to the two flags once the [break] test has
    failed: [opens] is the value of the condition of the first [if] (the
    current line is the separator and the next line is the header). The
    third component tells whether the line is appended to [result_lines]. *)
Definition step (skipping just_stopped_skipping : bool) (cur : str)
    (opens : bool) : bool * bool * bool :=
  let just_started_skipping := opens in
  let skipping := if opens then true else skipping in
  let append := negb skipping && negb (just_stopped_skipping && is_blank cur) in
  if skipping && bool_decide (cur = SANITIZER_SEPARATOR_LINE)
     && negb just_started_skipping
  then (false, true, append)
  else (skipping, false, append).

Inductive control : Type :=
  | Next (s : loop_state)
  | Break (s : loop_state).

(** One pass through the body of [while i < len(lines)]. *)
Definition loop_body (lines : list str) (s : loop_state) : outcome control :=
  cur ←' getitem lines (i s);
  if bool_decide (cur = YB_DATA_END) then Done (Break s)
  else
    opens ←' (if bool_decide (cur = SANITIZER_SEPARATOR_LINE)
              then if bool_decide (i s + 1 < length lines)
                   then nxt ←' getitem lines (i s + 1);
                        Done (bool_decide (nxt = SUPPRESSIONS_USED))
                   else Done false
              else Done false);
    let '(sk, js, append) :=
      step (skipping s) (just_stopped_skipping s) cur opens in
    Done (Next {| i := i s + 1;
                  skipping := sk;
                  just_stopped_skipping := js;
                  result_lines := if append then result_lines s ++ [cur]
                                  else result_lines s |}).

Fixpoint while_loop (fuel : nat) (lines : list str) (s : loop_state)
    : outcome (list str) :=
  if bool_decide (i s < length lines) then
    match fuel with
    | 0 => OutOfFuel
    | S fuel' =>
        c ←' loop_body lines s;
        match c with
        | Next s' => while_loop fuel' lines s'
        | Break s' => Done (result_lines s')
        end
    end
  else Done (result_lines s).

(** The state after [n] full iterations, when the loop makes that many. *)
Fixpoint iterations (n : nat) (lines : list str) (s : loop_state)
    : option loop_state :=
  match n with
  | 0 => Some s
  | S n' =>
      if bool_decide (i s < length lines) then
        match loop_body lines s with
        | Done (Next s') => iterations n' lines s'
        | _ => None
        end
      else None
  end.

(** ** Blank lines at the end *)

(** [while new_len > 0 and result_lines[new_len - 1].strip() == '']. *)
Fixpoint trim_loop (fuel : nat) (result_lines : list str) (new_len : nat)
    : outcome nat :=
  if bool_decide (0 < new_len) then
    l ←' getitem result_lines (new_len - 1);
    if bool_decide (strip l = []) then
      match fuel with
      | 0 => OutOfFuel
      | S fuel' => trim_loop fuel' result_lines (new_len - 1)
      end
    else Done new_len
  else Done new_len.

(** ** [main], from the list of lines read to the list of lines written *)

Definition process (lines : list str) : outcome (list str) :=
  let lines := rstrip <$> lines in
  let lines := mask_uuid4s <$> lines in
  result_lines ←' while_loop (length lines) lines initial;
  new_len ←' trim_loop (length result_lines) result_lines (length result_lines);
  Done (if bool_decide (new_len < length result_lines)
        then take new_len result_lines
        else result_lines).

(** [main] on the content of the file: the characters of the file that is
    read and the characters written over it (decoding and encoding, and what
    the operating system does with the path, are outside). *)
Definition main (text : str) : outcome str :=
  result_lines ←' process (readlines text);
  Done (join_lines result_lines ++ [LF]).

Definition NL : string := String LF EmptyString.
Definition SEP53 : string :=
  "-----------------------------------------------------".

(** ** The same loops by recursion on the lines

    [scan] is the main loop as a function of the lines not yet visited:
    the line under [i] is the head, the lookahead [lines[i + 1]] is the head
    of the tail. [while_loop_scan] below proves that the loop computes it. *)

Definition opens_block (cur : str) (rest : list str) : bool :=
  bool_decide (cur = SANITIZER_SEPARATOR_LINE)
  && match rest with
     | nxt :: _ => bool_decide (nxt = SUPPRESSIONS_USED)
     | [] => false
     end.

Fixpoint scan (sk js : bool) (ls : list str) : list str :=
  match ls with
  | [] => []
  | cur :: rest =>
      if bool_decide (cur = YB_DATA_END) then []
      else
        let '(sk', js', append) := step sk js cur (opens_block cur rest) in
        if append then cur :: scan sk' js' rest else scan sk' js' rest
  end.

(** The lines as the main loop sees them. *)
Definition prepare (lines : list str) : list str :=
  mask_uuid4s <$> (rstrip <$> lines).

(** The list of lines [main] writes, proved equal to [process] in
    [process_normalize]. *)
Definition normalize (lines : list str) : list str :=
  rdrop_while is_blank (scan false false (prepare lines)).

(** *** The loop as two passes *)

(** The lines before the first line equal to the end marker. *)
Fixpoint truncate_at_sentinel (ls : list str) : list str :=
  match ls with
  | [] => []
  | l :: rest =>
      if bool_decide (l = YB_DATA_END) then [] else l :: truncate_at_sentinel rest
  end.

(** The rest of the loop body, without the marker test: the flags of the
    loop are threaded through [step], the loop's own transition. *)
Fixpoint elide_blocks (sk js : bool) (ls : list str) : list str :=
  match ls with
  | [] => []
  | cur :: rest =>
      let '(sk', js', append) := step sk js cur (opens_block cur rest) in
      if append then cur :: elide_blocks sk' js' rest
      else elide_blocks sk' js' rest
  end.

(** *** Stage 4 as the specification words it

    Second definition, from the words of the specification and not from the
    loop: a machine with the states NORMAL and SKIPPING and the one-shot
    flag "just stopped skipping", run over the whole list that stage 3
    left. It goes from NORMAL to SKIPPING on a separator line followed by
    the header line, from SKIPPING to NORMAL on any separator line, drops
    both separators and all lines in between, and in NORMAL drops one blank
    line when the flag is set. *)
Inductive spec_state : Type :=
  | NORMAL (just_stopped : bool)
  | SKIPPING.

(** The state after the line and whether the line is emitted. *)
Definition spec_step (st : spec_state) (cur : str) (next : option str)
    : spec_state * bool :=
  match st with
  | NORMAL just_stopped =>
      if bool_decide (cur = SANITIZER_SEPARATOR_LINE)
         && bool_decide (next = Some SUPPRESSIONS_USED)
      then (SKIPPING, false)
      else if just_stopped && is_blank cur then (NORMAL false, false)
      else (NORMAL false, true)
  | SKIPPING =>
      if bool_decide (cur = SANITIZER_SEPARATOR_LINE)
      then (NORMAL true, false)
      else (SKIPPING, false)
  end.

Fixpoint spec_elide (st : spec_state) (ls : list str) : list str :=
  match ls with
  | [] => []
  | cur :: rest =>
      let '(st', emit) := spec_step st cur (head rest) in
      if emit then cur :: spec_elide st' rest else spec_elide st' rest
  end.

(** Stages 3 and 4 of the specification, one after the other. *)
Definition spec_stages_3_4 (lines : list str) : list str :=
  spec_elide (NORMAL false) (truncate_at_sentinel lines).

(** The state of the specification's machine for the flags of the loop. *)
Definition spec_of (skipping just_stopped_skipping : bool) : spec_state :=
  if skipping then SKIPPING else NORMAL just_stopped_skipping.

(** How much a state holds back: everything, one blank line, nothing. *)
Definition spec_rank (st : spec_state) : nat :=
  match st with
  | SKIPPING => 2
  | NORMAL true => 1
  | NORMAL false => 0
  end.

Definition loop_rank (skipping just_stopped_skipping : bool) : nat :=
  if skipping then 2 else if just_stopped_skipping then 1 else 0.

(** A separator line immediately followed by the header line. *)
Fixpoint has_opener (ls : list str) : bool :=
  match ls with
  | [] => false
  | cur :: rest => opens_block cur rest || has_opener rest
  end.

(** [mask_uuid4s] by recursion on the line: a match is replaced by the mask
    and the characters it covers are passed over. [mask_uuid4s_scan] proves
    that the function of the script computes it. *)
Fixpoint mask_scan (skip : nat) (s : str) : str :=
  match s with
  | [] => []
  | c :: t =>
      match skip with
      | S k => mask_scan k t
      | 0 =>
          if match_here uuid4_re s
          then UUID_MASK ++ mask_scan (pred (length uuid4_re)) t
          else c :: mask_scan 0 t
      end
  end.

(** The start indices are those of matches, in increasing order and at
    least one match length apart. *)
Fixpoint spaced (lo : nat) (starts : list nat) : Prop :=
  match starts with
  | [] => True
  | st :: rest => lo ≤ st ∧ spaced (st + 36) rest
  end.

(** No class of the pattern accepts the asterisk, the character the mask
    begins and ends with. *)
Definition rejects_star (p : list char_class) : Prop :=
  Forall (λ cl, in_class cl "*" = false) p.

(** Position by position, a character of the masked line is the original
    one or a character of the mask. *)
Definition kept_or_mask (a b : ascii) : Prop := b = a ∨ b ∈ UUID_MASK.

(** The state at the end of an iteration that does not break. *)
Definition advance (s : loop_state) (cur : str) (opens : bool) : loop_state :=
  let '(sk, js, append) :=
    step (skipping s) (just_stopped_skipping s) cur opens in
  {| i := i s + 1;
     skipping := sk;
     just_stopped_skipping := js;
     result_lines := if append then result_lines s ++ [cur]
                     else result_lines s |}.

(** ** Predicates of the statements *)

(** Line [k] (counted from 1) is the first line equal to the marker. *)
Definition first_sentinel_at (lines : list str) (k : nat) : Prop :=
  1 ≤ k
  ∧ lines !! (k - 1) = Some YB_DATA_END
  ∧ ∀ j, j < k - 1 → lines !! j ≠ Some YB_DATA_END.

(** The condition of the first [if] at index [k]. *)
Definition opens_at (lines : list str) (k : nat) : bool :=
  bool_decide (lines !! k = Some SANITIZER_SEPARATOR_LINE)
  && bool_decide (lines !! S k = Some SUPPRESSIONS_USED).

(** A line of [readlines] has no line feed, except possibly as its last
    character. *)
Definition line_shape (x : str) : Prop :=
  ∃ body, (LF ∉ body) ∧ (x = body ∨ x = body ++ [LF]).

(** ** Documents the statements are tried on *)

Definition idempotence_doc : list str :=
  [SANITIZER_SEPARATOR_LINE; SANITIZER_SEPARATOR_LINE; SUPPRESSIONS_USED;
   SANITIZER_SEPARATOR_LINE; []; SUPPRESSIONS_USED].

Definition sentinel_doc : list str :=
  [s_ "a"; []; YB_DATA_END; s_ "c"].

Definition reopen_doc : list str :=
  [SANITIZER_SEPARATOR_LINE; SUPPRESSIONS_USED;
   SANITIZER_SEPARATOR_LINE; SUPPRESSIONS_USED; s_ "x"].

Definition block_doc : list str :=
  [s_ "keep1"; SANITIZER_SEPARATOR_LINE; SUPPRESSIONS_USED;
   s_ "  count      bytes template";
   s_ "      1        552 save_ps_display_args";
   SANITIZER_SEPARATOR_LINE; []; s_ "keep2"].

Definition adjacent_blocks_doc : list str :=
  [SANITIZER_SEPARATOR_LINE; SUPPRESSIONS_USED; SANITIZER_SEPARATOR_LINE;
   SANITIZER_SEPARATOR_LINE; SUPPRESSIONS_USED; SANITIZER_SEPARATOR_LINE].

Definition two_blanks_doc : list str :=
  [SANITIZER_SEPARATOR_LINE; SUPPRESSIONS_USED; SANITIZER_SEPARATOR_LINE;
   []; []].

Definition block_two_blanks_doc : list str :=
  [s_ "keep1"; SANITIZER_SEPARATOR_LINE; SUPPRESSIONS_USED;
   s_ "  count      bytes template";
   s_ "      1        552 save_ps_display_args";
   SANITIZER_SEPARATOR_LINE; []; []; s_ "keep2"].

Definition stray_markers_doc : list str :=
  [SUPPRESSIONS_USED; s_ "x"; SANITIZER_SEPARATOR_LINE].

(** ** The path of a file that is created

    When the file named by [sys.argv[1]] does not exist and
    [os.path.dirname(file_path)] ends with [/regress/expected], the script
    writes one line into it before it reads it. *)

(** [p.rfind('/') + 1]: the index behind the last slash, [0] without one. *)
Fixpoint rfind_slash_succ (p : str) : nat :=
  match p with
  | [] => 0
  | c :: t =>
      match rfind_slash_succ t with
      | 0 => if bool_decide (c = "/"%char) then 1 else 0
      | S r => S (S r)
      end
  end.

Definition is_slash (c : ascii) : bool := bool_decide (c = "/"%char).

(** [os.path.dirname] and [os.path.basename] of [posixpath]. *)
Definition dirname (p : str) : str :=
  let i := rfind_slash_succ p in
  let head := take i p in
  if bool_decide (head ≠ [])
     && bool_decide (head ≠ replicate (length head) "/"%char)
  then rdrop_while is_slash head
  else head.

Definition basename (p : str) : str := drop (rfind_slash_succ p) p.

(** [s.endswith(suffix)] *)
Definition endswith (s suffix : str) : bool :=
  bool_decide (suffix `suffix_of` s).

Definition EXPECTED_DIR_SUFFIX : str := s_ "/regress/expected".

(** ['-- Automatically created by %s (new test?)' % os.path.basename(__file__)],
    the line written to a new file, without its line feed; [script] is the
    value of [__file__]. *)
Definition placeholder_line (script : str) : str :=
  s_ "-- Automatically created by " ++ basename script ++ s_ " (new test?)".

(** Closed statements are settled by running the definitions. *)
Ltac run := vm_compute; reflexivity.

(** ** The examples of the specification *)

Example mask_example :
  mask_uuid4s (s_ "id=123e4567-e89b-42d3-a456-426614174000 done")
  = s_ "id=********-****-4***-****-************ done".
Proof. run. Qed.

Example rstrip_example : rstrip (s_ "foo   ") = s_ "foo".
Proof. run. Qed.

Example sanitizer_block_example :
  main (s_ ("keep1" +:+ NL +:+ SEP53 +:+ NL +:+ "Suppressions used:" +:+ NL
            +:+ "  count      bytes template" +:+ NL
            +:+ "      1        552 save_ps_display_args" +:+ NL
            +:+ SEP53 +:+ NL +:+ NL +:+ "keep2" +:+ NL))
  = Done (s_ ("keep1" +:+ NL +:+ "keep2" +:+ NL)).
Proof. run. Qed.

Example sentinel_example :
  main (s_ ("a" +:+ NL +:+ "b" +:+ NL +:+ "-- YB_DATA_END" +:+ NL +:+ "c"
            +:+ NL +:+ "d"))
  = Done (s_ ("a" +:+ NL +:+ "b" +:+ NL)).
Proof. run. Qed.

Example empty_file_example : main [] = Done [LF].
Proof. run. Qed.

(** A carriage return ends a line, alone or before a line feed. *)
Example carriage_return_example :
  main (s_ "a" ++ [CR] ++ s_ "b " ++ [CR; LF] ++ s_ "c")
  = Done (s_ ("a" +:+ NL +:+ "b" +:+ NL +:+ "c" +:+ NL)).
Proof. run. Qed.

(** ** Lists without their trailing run *)

Section drop_while.
Context {A : Type} (f : A → bool).

Lemma rdrop_while_nil : rdrop_while f [] = [].
Proof. reflexivity. Qed.

Lemma rdrop_while_snoc l x :
  rdrop_while f (l ++ [x]) = if f x then rdrop_while f l else l ++ [x].
Proof.
  unfold rdrop_while. rewrite reverse_snoc. simpl.
  destruct (f x); [done|]. by rewrite <- reverse_snoc, reverse_involutive.
Qed.

Lemma rdrop_while_prefix l : rdrop_while f l `prefix_of` l.
Proof.
  induction l as [|x l IH] using rev_ind; [done|].
  rewrite rdrop_while_snoc. destruct (f x); [|done].
  by apply prefix_app_r.
Qed.

Lemma rdrop_while_last l x : last (rdrop_while f l) = Some x → f x = false.
Proof.
  induction l as [|y l IH] using rev_ind; [done|].
  rewrite rdrop_while_snoc. destruct (f y) eqn:Hy; [done|].
  rewrite last_snoc. congruence.
Qed.

Lemma rdrop_while_fixed l :
  (∀ x, last l = Some x → f x = false) → rdrop_while f l = l.
Proof.
  destruct l as [|y l _] using rev_ind; [done|].
  intros H. rewrite rdrop_while_snoc, (H y); [done|]. by rewrite last_snoc.
Qed.

Lemma rdrop_while_idemp l : rdrop_while f (rdrop_while f l) = rdrop_while f l.
Proof. apply rdrop_while_fixed, rdrop_while_last. Qed.

Lemma rdrop_while_length l : length (rdrop_while f l) ≤ length l.
Proof. apply prefix_length, rdrop_while_prefix. Qed.

Lemma rdrop_while_take l : take (length (rdrop_while f l)) l = rdrop_while f l.
Proof.
  destruct (rdrop_while_prefix l) as [k Hk].
  rewrite Hk at 2. by rewrite take_app_length.
Qed.

Lemma rdrop_while_keeps l x k :
  f x = false → rdrop_while f (l ++ x :: k) = l ++ x :: rdrop_while f k.
Proof.
  intros Hx. induction k as [|y k IH] using rev_ind.
  - rewrite rdrop_while_nil, rdrop_while_snoc, Hx. done.
  - replace (l ++ x :: k ++ [y]) with ((l ++ x :: k) ++ [y])
      by (by rewrite <- app_assoc).
    rewrite !rdrop_while_snoc. destruct (f y); [done|].
    by rewrite <- app_assoc.
Qed.

Lemma drop_while_all l : Forall (λ x, f x = true) l → drop_while f l = [].
Proof. induction 1 as [|x l Hx _ IH]; simpl; [done|]. by rewrite Hx. Qed.

Lemma drop_while_nil_inv l : drop_while f l = [] → Forall (λ x, f x = true) l.
Proof.
  induction l as [|x l IH]; simpl; [done|].
  destruct (f x) eqn:Hx; [|done]. auto.
Qed.
End drop_while.

(** ** Whitespace *)

Lemma strip_nil_iff s : strip s = [] ↔ Forall (λ c, isspace c = true) s.
Proof.
  unfold strip, lstrip, rstrip. split.
  - intros H. apply drop_while_nil_inv in H.
    induction s as [|c s IH] using rev_ind; [done|].
    rewrite rdrop_while_snoc in H. destruct (isspace c) eqn:Hc.
    + apply Forall_app. split; [auto|]. by repeat constructor.
    + apply Forall_app in H as [_ H]. inversion H; congruence.
  - intros H. apply drop_while_all.
    induction s as [|c s IH] using rev_ind; [done|].
    apply Forall_app in H as [H1 H2]. inversion H2; subst.
    rewrite rdrop_while_snoc. rewrite H3. auto.
Qed.

Lemma rstrip_idemp s : rstrip (rstrip s) = rstrip s.
Proof. apply rdrop_while_idemp. Qed.

Lemma rstrip_fixed_iff s :
  rstrip s = s ↔ ∀ c, last s = Some c → isspace c = false.
Proof.
  split.
  - intros H c Hc. rewrite <- H in Hc. by apply rdrop_while_last in Hc.
  - apply rdrop_while_fixed.
Qed.

(** A right-stripped line is blank exactly when it is empty. *)
Lemma is_blank_rstripped s : rstrip s = s → is_blank s = bool_decide (s = []).
Proof.
  intros H. unfold is_blank. apply bool_decide_ext. split; [|by intros ->].
  intros Hs. apply strip_nil_iff in Hs.
  destruct s as [|c s _] using rev_ind; [done|].
  apply Forall_app in Hs as [_ Hs]. inversion Hs; subst.
  rewrite (proj1 (rstrip_fixed_iff _) H c) in H2; [done|]. by rewrite last_snoc.
Qed.

(** ** Slices and matches *)

Lemma length_uuid4_re : length uuid4_re = 36.
Proof. reflexivity. Qed.

Lemma length_UUID_MASK : length UUID_MASK = 36.
Proof. reflexivity. Qed.

Lemma drop_cons_inv {A} (l : list A) n x t :
  drop n l = x :: t → l !! n = Some x ∧ drop (S n) l = t.
Proof.
  intros H. split.
  - replace n with (n + 0) by lia. by rewrite <- lookup_drop, H.
  - replace (S n) with (n + 1) by lia. by rewrite <- drop_drop, H.
Qed.

Lemma drop_lt_cons {A} (l : list A) n :
  n < length l → ∃ x t, drop n l = x :: t.
Proof.
  intros Hn. destruct (drop n l) as [|x t] eqn:Hd; [|eauto].
  apply (f_equal length) in Hd. rewrite length_drop in Hd. simpl in Hd. lia.
Qed.

Lemma slice_empty {A} (l : list A) a b : b ≤ a → slice a b l = [].
Proof. intros H. unfold slice. by replace (b - a) with 0 by lia. Qed.

Lemma slice_S {A} (l : list A) a b x :
  a ≤ b → l !! b = Some x → slice a (S b) l = slice a b l ++ [x].
Proof.
  intros Hab Hx. unfold slice. replace (S b - a) with (S (b - a)) by lia.
  apply take_S_r. rewrite lookup_drop. by replace (a + (b - a)) with b by lia.
Qed.

Lemma slice_to_end {A} (l : list A) a b : length l ≤ b → slice a b l = drop a l.
Proof. intros H. unfold slice. apply take_ge. rewrite length_drop. lia. Qed.

Lemma match_here_length p s : match_here p s = true → length p ≤ length s.
Proof.
  revert s. induction p as [|cl p IH]; intros [|c s]; simpl; try done; [lia|].
  destruct (in_class cl c); [|done]. intros H%IH. lia.
Qed.

Lemma match_here_full p s :
  match_here p s = true ↔ full_match p (take (length p) s).
Proof.
  unfold full_match. revert s. induction p as [|cl p IH]; intros [|c s]; simpl.
  - split; [constructor|done].
  - split; [constructor|done].
  - split; [done|]. intros H. inversion H.
  - destruct (in_class cl c) eqn:Hc.
    + rewrite IH. split; [by constructor|]. intros H. by inversion H.
    + split; [done|]. intros H. inversion H. congruence.
Qed.

Lemma full_match_here p u k : full_match p u → match_here p (u ++ k) = true.
Proof.
  intros H. apply match_here_full.
  rewrite (Forall2_length _ _ _ H), take_app_length. done.
Qed.

(** ** Masking *)

(** The loop over the start indices computes [mask_scan]. *)
Lemma mask_loop_scan (L : str) s :
  ∀ pos skip prev acc,
    drop pos L = s → pos ≤ length L →
    (skip = 0 ∧ prev ≤ pos) ∨ (0 < skip ∧ prev = pos + skip) →
    (let '(prev', acc') :=
       mask_loop L (finditer_from uuid4_re pos skip s) prev acc in
     acc' ++ slice_from prev' L)
    = acc ++ slice prev pos L ++ mask_scan skip s.
Proof.
  induction s as [|c t IH]; intros pos skip prev acc Hs Hpos Hinv.
  - cbn [finditer_from mask_loop mask_scan]. unfold slice_from.
    rewrite app_nil_r. f_equal. symmetry. apply slice_to_end.
    apply (f_equal length) in Hs. rewrite length_drop in Hs. simpl in Hs. lia.
  - apply drop_cons_inv in Hs as [Hc Ht].
    destruct skip as [|k]; cbn [finditer_from mask_scan].
    + destruct Hinv as [[_ Hprev]|[? _]]; [|lia].
      destruct (match_here uuid4_re (c :: t)) eqn:Hm.
      * cbn [mask_loop]. erewrite IH; [|done|by apply lookup_lt_Some in Hc|].
        -- rewrite (slice_empty _ (pos + length UUID_MASK));
             [|rewrite length_UUID_MASK; lia].
           by rewrite <- !app_assoc.
        -- right. rewrite length_uuid4_re, length_UUID_MASK. simpl. lia.
      * erewrite IH; [|done|by apply lookup_lt_Some in Hc|left; split; [done|lia]].
        rewrite (slice_S _ _ _ c); [|done..]. by rewrite <- !app_assoc.
    + destruct Hinv as [[? _]|[_ Hprev]]; [lia|].
      erewrite IH; [|done|by apply lookup_lt_Some in Hc|].
      * rewrite !slice_empty; [done|lia..].
      * destruct k; [left|right]; lia.
Qed.

Lemma mask_uuid4s_scan s : mask_uuid4s s = mask_scan 0 s.
Proof.
  unfold mask_uuid4s, finditer_starts.
  pose proof (mask_loop_scan s s 0 0 0 [] eq_refl (Nat.le_0_l _)) as H.
  rewrite slice_empty in H; [|done]. apply H. left. done.
Qed.

Lemma mask_scan_skip s : ∀ skip, mask_scan skip s = mask_scan 0 (drop skip s).
Proof.
  induction s as [|c t IH]; intros [|k]; try done.
  cbn [mask_scan drop]. apply IH.
Qed.

Lemma finditer_from_skip p s :
  ∀ pos skip,
    finditer_from p pos skip s = finditer_from p (pos + skip) 0 (drop skip s).
Proof.
  induction s as [|c t IH]; intros pos [|k]; try done.
  - cbn [drop]. by rewrite Nat.add_0_r.
  - cbn [finditer_from drop]. rewrite IH. f_equal. lia.
Qed.

(** The two unfolding equations the proofs below use. *)
Lemma mask_scan_match s :
  match_here uuid4_re s = true →
  mask_scan 0 s = UUID_MASK ++ mask_scan 0 (drop 36 s).
Proof.
  intros Hm. destruct s as [|c t]; [done|].
  cbn [mask_scan]. rewrite Hm, mask_scan_skip. done.
Qed.

Lemma mask_scan_no_match c t :
  match_here uuid4_re (c :: t) = false →
  mask_scan 0 (c :: t) = c :: mask_scan 0 t.
Proof. intros Hm. cbn [mask_scan]. by rewrite Hm. Qed.

Lemma finditer_match s pos :
  match_here uuid4_re s = true →
  finditer_from uuid4_re pos 0 s
  = pos :: finditer_from uuid4_re (pos + 36) 0 (drop 36 s).
Proof.
  intros Hm. destruct s as [|c t]; [done|].
  cbn [finditer_from]. rewrite Hm, finditer_from_skip, length_uuid4_re.
  cbn [Nat.pred drop]. do 2 f_equal. lia.
Qed.

Lemma finditer_no_match c t pos :
  match_here uuid4_re (c :: t) = false →
  finditer_from uuid4_re pos 0 (c :: t) = finditer_from uuid4_re (S pos) 0 t.
Proof. intros Hm. cbn [finditer_from]. by rewrite Hm. Qed.

(** Induction along the scan of [re.finditer]. *)
Lemma mask_ind (P : str → Prop) :
  P [] →
  (∀ c t, match_here uuid4_re (c :: t) = false → P t → P (c :: t)) →
  (∀ s, match_here uuid4_re s = true → P (drop 36 s) → P s) →
  ∀ s, P s.
Proof.
  intros Hnil Hcons Hmatch s.
  remember (length s) as n eqn:Hn. revert s Hn.
  induction n as [n IH] using lt_wf_ind. intros s ->.
  destruct (match_here uuid4_re s) eqn:Hm.
  - apply Hmatch; [done|]. apply (IH (length (drop 36 s))); [|done].
    apply match_here_length in Hm. rewrite length_uuid4_re in Hm.
    rewrite length_drop. lia.
  - destruct s as [|c t]; [done|]. apply Hcons; [done|].
    apply (IH (length t)); [simpl; lia|done].
Qed.

Lemma length_mask_scan s : length (mask_scan 0 s) = length s.
Proof.
  induction s as [|c t Hm IH|s Hm IH] using mask_ind; [done|..].
  - rewrite mask_scan_no_match by done. simpl. by rewrite IH.
  - rewrite mask_scan_match, length_app, IH, length_UUID_MASK, length_drop by done.
    apply match_here_length in Hm. rewrite length_uuid4_re in Hm. lia.
Qed.

Lemma finditer_spaced s : ∀ pos, spaced pos (finditer_from uuid4_re pos 0 s).
Proof.
  induction s as [|c t Hm IH|s Hm IH] using mask_ind; intros pos; [done|..].
  - rewrite finditer_no_match by done.
    assert (∀ l a b, a ≤ b → spaced b l → spaced a l) as Hmono.
    { intros [|x l] a b Hab; simpl; [done|]. intros [? ?]. split; [lia|done]. }
    apply (Hmono _ _ (S pos)); [lia|apply IH].
  - rewrite finditer_match by done. simpl. split; [done|apply IH].
Qed.

Lemma finditer_matches s :
  ∀ pos st, st ∈ finditer_from uuid4_re pos 0 s →
    pos ≤ st ∧ match_here uuid4_re (drop (st - pos) s) = true.
Proof.
  induction s as [|c t Hm IH|s Hm IH] using mask_ind; intros pos st.
  - intros H. by apply elem_of_nil in H.
  - rewrite finditer_no_match by done. intros [Hle H]%IH. split; [lia|].
    replace (st - pos) with (S (st - S pos)) by lia. done.
  - rewrite finditer_match by done. intros [->|[Hle H]%IH]%elem_of_cons.
    + split; [done|]. by rewrite Nat.sub_diag.
    + split; [lia|]. rewrite drop_drop in H.
      by replace (36 + (st - (pos + 36))) with (st - pos) in H by lia.
Qed.

(** Leftmost: every match of the pattern in the line overlaps a match that
    was found. *)
Lemma finditer_leftmost s :
  ∀ pos j, match_here uuid4_re (drop j s) = true →
    ∃ st, st ∈ finditer_from uuid4_re pos 0 s ∧ st ≤ pos + j < st + 36.
Proof.
  induction s as [|c t Hm IH|s Hm IH] using mask_ind; intros pos j Hj.
  - by rewrite drop_nil in Hj.
  - rewrite finditer_no_match by done. destruct j as [|j]; [cbn [drop] in Hj; congruence|].
    destruct (IH (S pos) j Hj) as (st & Hst & ?). exists st. split; [done|lia].
  - rewrite finditer_match by done. destruct (decide (j < 36)) as [Hlt|Hge].
    + exists pos. split; [left|lia].
    + replace j with (36 + (j - 36)) in Hj by lia. rewrite <- drop_drop in Hj.
      destruct (IH (pos + 36) _ Hj) as (st & Hst & ?).
      exists st. split; [by right|lia].
Qed.

Lemma mask_scan_spans s :
  ∀ pos st, st ∈ finditer_from uuid4_re pos 0 s →
    slice (st - pos) (st - pos + 36) (mask_scan 0 s) = UUID_MASK.
Proof.
  induction s as [|c t Hm IH|s Hm IH] using mask_ind; intros pos st.
  - intros H. by apply elem_of_nil in H.
  - rewrite finditer_no_match, mask_scan_no_match by done. intros H.
    destruct (finditer_matches _ _ _ H) as [Hle _]. apply IH in H.
    replace (st - pos) with (S (st - S pos)) by lia. done.
  - rewrite finditer_match, mask_scan_match by done.
    intros [->|H]%elem_of_cons.
    + rewrite Nat.sub_diag. unfold slice. rewrite drop_0.
      replace (0 + 36 - 0) with (length UUID_MASK) by done.
      by rewrite take_app_length.
    + destruct (finditer_matches _ _ _ H) as [Hle _]. apply IH in H.
      unfold slice in *.
      rewrite drop_app_ge; rewrite length_UUID_MASK; [|lia].
      replace (st - pos - 36) with (st - (pos + 36)) by lia.
      rewrite <- H. f_equal. lia.
Qed.

Lemma mask_scan_outside s :
  ∀ pos j,
    (∀ st, st ∈ finditer_from uuid4_re pos 0 s → ¬ (st ≤ pos + j < st + 36)) →
    mask_scan 0 s !! j = s !! j.
Proof.
  induction s as [|c t Hm IH|s Hm IH] using mask_ind; intros pos j Hout; [done|..].
  - rewrite mask_scan_no_match by done. destruct j as [|j]; [done|]. simpl.
    apply (IH (S pos)). intros st Hst. rewrite finditer_no_match in Hout by done.
    specialize (Hout st Hst). lia.
  - rewrite finditer_match in Hout by done. rewrite mask_scan_match by done.
    assert (36 ≤ j) as Hj.
    { specialize (Hout pos (list_elem_of_here _ _)). lia. }
    rewrite lookup_app_r; rewrite length_UUID_MASK; [|done].
    rewrite (IH (pos + 36)).
    + rewrite lookup_drop. f_equal. lia.
    + intros st Hst. specialize (Hout st (list_elem_of_further _ _ _ Hst)). lia.
Qed.

Lemma uuid4_re_rejects_star : rejects_star uuid4_re.
Proof. unfold rejects_star. repeat constructor. Qed.

(** A match that starts in the masked line on a character that was kept
    runs over kept characters only. *)
Lemma match_here_mask_scan s :
  ∀ q, rejects_star q →
    match_here q (mask_scan 0 s) = true → match_here q s = true.
Proof.
  induction s as [|c t IH]; intros q Hq; [done|].
  destruct q as [|cl q]; [done|]. inversion Hq as [|? ? Hcl Hq']; subst.
  destruct (match_here uuid4_re (c :: t)) eqn:Hm.
  - rewrite mask_scan_match by done.
    change UUID_MASK with ("*"%char :: drop 1 UUID_MASK).
    cbn [app match_here]. by rewrite Hcl.
  - rewrite mask_scan_no_match by done. cbn [match_here].
    destruct (in_class cl c); [|done]. by apply IH.
Qed.

(** No match begins inside the mask, whatever follows it. *)
Lemma no_match_in_mask r j :
  j < 36 → match_here uuid4_re (drop j (UUID_MASK ++ r)) = false.
Proof.
  intros Hj.
  do 36 (destruct j as [|j]; [vm_compute; reflexivity|]). lia.
Qed.

Lemma mask_scan_no_uuid s :
  ∀ j, match_here uuid4_re (drop j (mask_scan 0 s)) = false.
Proof.
  induction s as [|c t Hm IH|s Hm IH] using mask_ind; intros j.
  - cbn [mask_scan]. by rewrite drop_nil.
  - destruct j as [|j].
    + rewrite drop_0. apply not_true_is_false. intros H.
      apply match_here_mask_scan in H; [congruence|apply uuid4_re_rejects_star].
    + rewrite mask_scan_no_match by done. apply IH.
  - rewrite mask_scan_match by done. destruct (decide (j < 36)) as [Hlt|Hge].
    + by apply no_match_in_mask.
    + rewrite drop_app_ge; rewrite length_UUID_MASK; [apply IH|lia].
Qed.

Lemma mask_scan_fixed s :
  (∀ j, match_here uuid4_re (drop j s) = false) → mask_scan 0 s = s.
Proof.
  induction s as [|c t IH]; intros H; [done|].
  rewrite mask_scan_no_match by apply (H 0). f_equal. apply IH.
  intros j. apply (H (S j)).
Qed.

Lemma mask_uuid4s_idemp s : mask_uuid4s (mask_uuid4s s) = mask_uuid4s s.
Proof. rewrite !mask_uuid4s_scan. apply mask_scan_fixed, mask_scan_no_uuid. Qed.

Lemma mask_scan_chars s : Forall2 kept_or_mask s (mask_scan 0 s).
Proof.
  induction s as [|c t Hm IH|s Hm IH] using mask_ind; [constructor|..].
  - rewrite mask_scan_no_match by done. constructor; [by left|done].
  - rewrite mask_scan_match by done. rewrite <- (take_drop 36 s) at 1.
    apply Forall2_app; [|done].
    apply Forall2_same_length_lookup_2.
    + apply match_here_length in Hm. rewrite length_uuid4_re in Hm.
      rewrite length_take, length_UUID_MASK. lia.
    + intros j a b _ Hb. right. by eapply list_elem_of_lookup_2.
Qed.

Lemma mask_chars_not_space : Forall (λ c, isspace c = false) UUID_MASK.
Proof. repeat constructor. Qed.

Lemma kept_or_mask_not_space a b :
  kept_or_mask a b → isspace a = false → isspace b = false.
Proof.
  intros [->|Hb]; [done|]. intros _.
  by apply (proj1 (Forall_forall _ _) mask_chars_not_space).
Qed.

(** Masking a right-stripped line leaves it right-stripped. *)
Lemma rstrip_mask_uuid4s s :
  rstrip s = s → rstrip (mask_uuid4s s) = mask_uuid4s s.
Proof.
  rewrite !rstrip_fixed_iff, mask_uuid4s_scan. intros Hs b Hb.
  pose proof (mask_scan_chars s) as HF.
  apply last_Some in Hb as [l' Hl'].
  rewrite Hl' in HF. apply Forall2_app_inv_r in HF as (s1 & s2 & _ & H2 & ->).
  inversion H2 as [|a ? s2' ? Hab H2']; subst. inversion H2'; subst.
  eapply kept_or_mask_not_space; [done|]. apply Hs. by rewrite last_snoc.
Qed.

(** A line of [prepare] is left alone by a second trim and masking. *)
Lemma prepare_line_fixed l :
  mask_uuid4s (rstrip (mask_uuid4s (rstrip l))) = mask_uuid4s (rstrip l).
Proof.
  rewrite (rstrip_mask_uuid4s (rstrip l)) by apply rstrip_idemp.
  apply mask_uuid4s_idemp.
Qed.

(** ** The main loop computes [scan] *)

Lemma loop_body_at lines s cur rest :
  drop (i s) lines = cur :: rest →
  loop_body lines s =
    if bool_decide (cur = YB_DATA_END) then Done (Break s)
    else Done (Next (advance s cur (opens_block cur rest))).
Proof.
  intros Hd. pose proof Hd as [Hcur Hrest]%drop_cons_inv.
  unfold loop_body, getitem. rewrite Hcur. cbn [bind].
  case_bool_decide as Hend; [done|].
  unfold advance, opens_block.
  case_bool_decide as Hsep; cbn [andb];
    [|cbn [bind]; by destruct (step _ _ _ _) as [[? ?] ?]].
  apply (f_equal length) in Hd. rewrite length_drop in Hd. cbn [length] in Hd.
  destruct rest as [|nxt rest'].
  - rewrite bool_decide_eq_false_2 by (simpl in Hd; lia). cbn [bind].
    by destruct (step _ _ _ _) as [[? ?] ?].
  - rewrite bool_decide_eq_true_2 by (simpl in Hd; lia).
    apply drop_cons_inv in Hrest as [Hnxt _].
    replace (i s + 1) with (S (i s)) by lia. rewrite Hnxt. cbn [bind].
    by destruct (step _ _ _ _) as [[? ?] ?].
Qed.

Lemma scan_cons sk js cur rest :
  cur ≠ YB_DATA_END →
  ∀ s, skipping s = sk → just_stopped_skipping s = js →
    result_lines s ++ scan sk js (cur :: rest)
    = result_lines (advance s cur (opens_block cur rest))
      ++ scan (skipping (advance s cur (opens_block cur rest)))
              (just_stopped_skipping (advance s cur (opens_block cur rest)))
              rest.
Proof.
  intros Hend s <- <-. cbn [scan]. rewrite bool_decide_eq_false_2 by done.
  unfold advance.
  destruct (step _ _ _ _) as [[sk' js'] [|]]; cbn; [|done].
  by rewrite <- app_assoc.
Qed.

Lemma while_loop_scan fuel :
  ∀ lines s, length lines - i s ≤ fuel →
    while_loop fuel lines s
    = Done (result_lines s
            ++ scan (skipping s) (just_stopped_skipping s) (drop (i s) lines)).
Proof.
  induction fuel as [|fuel IH]; intros lines s Hfuel.
  - cbn [while_loop]. rewrite bool_decide_eq_false_2 by lia.
    rewrite drop_ge by lia. by rewrite app_nil_r.
  - cbn [while_loop]. case_bool_decide as Hi.
    + destruct (drop_lt_cons lines (i s) Hi) as (cur & rest & Hd).
      rewrite Hd, (loop_body_at _ _ _ _ Hd). case_bool_decide as Hend.
      * cbn [bind scan]. rewrite bool_decide_eq_true_2 by done.
        by rewrite app_nil_r.
      * cbn [bind]. rewrite IH.
        -- f_equal. rewrite (scan_cons _ _ _ _ Hend s) by done.
           f_equal. f_equal. apply drop_cons_inv in Hd as [_ <-].
           f_equal. unfold advance. destruct (step _ _ _ _) as [[? ?] ?]. simpl. lia.
        -- unfold advance. destruct (step _ _ _ _) as [[? ?] ?]. simpl. lia.
    + rewrite drop_ge by lia. by rewrite app_nil_r.
Qed.

Lemma advance_i s cur opens : i (advance s cur opens) = S (i s).
Proof. unfold advance. destruct (step _ _ _ _) as [[? ?] ?]. simpl. lia. Qed.

(** One more iteration after [n]. *)
Lemma iterations_S n :
  ∀ lines s s' cur rest,
    iterations n lines s = Some s' → drop (i s') lines = cur :: rest →
    iterations (S n) lines s
    = if bool_decide (cur = YB_DATA_END) then None
      else Some (advance s' cur (opens_block cur rest)).
Proof.
  induction n as [|n IH]; intros lines s s' cur rest Hn Hd.
  - injection Hn as ->. cbn [iterations].
    rewrite bool_decide_eq_true_2.
    + rewrite (loop_body_at _ _ _ _ Hd). by case_bool_decide.
    + apply (f_equal length) in Hd. rewrite length_drop in Hd. simpl in Hd. lia.
  - cbn [iterations] in Hn. case_bool_decide as Hi; [|done].
    destruct (loop_body lines s) as [[s1|s1]| |] eqn:Hb; try done.
    rewrite <- (IH _ _ _ _ _ Hn Hd). cbn [iterations].
    rewrite bool_decide_eq_true_2 by done. by rewrite Hb.
Qed.

(** After [n] iterations the index is [n] further and what the loop still
    returns is what it returned from the start. *)
Lemma iterations_scan n :
  ∀ lines s s', iterations n lines s = Some s' →
    i s' = i s + n
    ∧ result_lines s
      ++ scan (skipping s) (just_stopped_skipping s) (drop (i s) lines)
      = result_lines s'
        ++ scan (skipping s') (just_stopped_skipping s') (drop (i s') lines).
Proof.
  induction n as [|n IH]; intros lines s s' Hn.
  - injection Hn as ->. split; [lia|done].
  - cbn [iterations] in Hn. case_bool_decide as Hi; [|done].
    destruct (drop_lt_cons lines (i s) Hi) as (cur & rest & Hd).
    rewrite Hd, (loop_body_at _ _ _ _ Hd) in *. case_bool_decide as Hend; [done|].
    apply IH in Hn as [Hi' Hscan]. rewrite advance_i in *. split; [lia|].
    rewrite <- Hscan, (scan_cons _ _ _ _ Hend s) by done.
    apply drop_cons_inv in Hd as [_ ->]. done.
Qed.

(** ** The trailing loop *)

Lemma trim_loop_spec rl n :
  ∀ fuel, n ≤ length rl → n ≤ fuel →
    trim_loop fuel rl n = Done (length (rdrop_while is_blank (take n rl))).
Proof.
  induction n as [|n IH]; intros fuel Hn Hfuel.
  - destruct fuel; done.
  - destruct (lookup_lt_is_Some_2 rl n) as [l Hl]; [lia|].
    rewrite (take_S_r _ _ _ Hl), rdrop_while_snoc.
    assert (trim_loop fuel rl (S n) =
            if is_blank l then trim_loop (pred fuel) rl n else Done (S n)) as ->.
    { destruct fuel as [|fuel]; [lia|]. cbn [trim_loop].
      rewrite bool_decide_eq_true_2 by lia. unfold getitem.
      replace (S n - 1) with n by lia. rewrite Hl. cbn [bind]. done. }
    destruct (is_blank l).
    + apply IH; lia.
    + rewrite length_app, length_take. simpl. f_equal. lia.
Qed.

(** [process] returns, and returns [normalize]. *)
Lemma process_normalize lines : process lines = Done (normalize lines).
Proof.
  unfold process, normalize, prepare.
  rewrite while_loop_scan by (simpl; lia). cbn [bind initial i skipping
    just_stopped_skipping result_lines app]. rewrite drop_0.
  set (rl := scan _ _ _).
  rewrite trim_loop_spec by done. cbn [bind]. rewrite firstn_all.
  f_equal. case_bool_decide as Hlt.
  - apply rdrop_while_take.
  - symmetry. apply prefix_length_eq; [apply rdrop_while_prefix|lia].
Qed.

(** ** Properties of the scan *)

Lemma opens_block_truncate cur rest :
  opens_block cur (truncate_at_sentinel rest) = opens_block cur rest.
Proof.
  unfold opens_block. f_equal. destruct rest as [|nxt rest]; [done|].
  cbn [truncate_at_sentinel]. case_bool_decide as Hend; [|done].
  subst nxt. done.
Qed.

(** The interleaved loop is the cut at the marker followed by the elision. *)
Lemma scan_truncate ls :
  ∀ sk js, scan sk js ls = elide_blocks sk js (truncate_at_sentinel ls).
Proof.
  induction ls as [|cur rest IH]; intros sk js; [done|].
  cbn [scan truncate_at_sentinel]. case_bool_decide as Hend; [done|].
  cbn [elide_blocks]. rewrite opens_block_truncate.
  destruct (step _ _ _ _) as [[sk' js'] [|]]; by rewrite IH.
Qed.

Lemma truncate_no_sentinel ls : YB_DATA_END ∉ ls → truncate_at_sentinel ls = ls.
Proof.
  induction ls as [|l ls IH]; [done|]. intros [Hl Hls]%not_elem_of_cons.
  cbn [truncate_at_sentinel]. rewrite bool_decide_eq_false_2 by done.
  by rewrite IH.
Qed.

Lemma truncate_at_sentinel_spec ls : YB_DATA_END ∉ truncate_at_sentinel ls.
Proof.
  induction ls as [|l ls IH]; cbn [truncate_at_sentinel]; [apply not_elem_of_nil|].
  case_bool_decide; [apply not_elem_of_nil|]. by apply not_elem_of_cons.
Qed.

Lemma truncate_first ls k :
  ls !! k = Some YB_DATA_END → (∀ j, j < k → ls !! j ≠ Some YB_DATA_END) →
  truncate_at_sentinel ls = take k ls.
Proof.
  revert k. induction ls as [|l ls IH]; intros k Hk Hfirst; [by destruct k|].
  cbn [truncate_at_sentinel]. destruct k as [|k].
  - injection Hk as ->. by rewrite bool_decide_eq_true_2.
  - rewrite bool_decide_eq_false_2.
    + cbn [take]. f_equal. apply IH; [done|].
      intros j Hj. apply (Hfirst (S j)). lia.
    + intros ->. by apply (Hfirst 0); [lia|].
Qed.

Lemma elide_blocks_sublist ls : ∀ sk js, elide_blocks sk js ls `sublist_of` ls.
Proof.
  induction ls as [|cur rest IH]; intros sk js; [done|].
  cbn [elide_blocks]. destruct (step _ _ _ _) as [[sk' js'] [|]].
  - by apply sublist_skip.
  - by apply sublist_cons.
Qed.

Lemma truncate_sublist ls : truncate_at_sentinel ls `sublist_of` ls.
Proof.
  induction ls as [|l ls IH]; [done|]. cbn [truncate_at_sentinel].
  case_bool_decide; [apply sublist_nil_l|by apply sublist_skip].
Qed.

Lemma scan_sublist sk js ls : scan sk js ls `sublist_of` ls.
Proof.
  rewrite scan_truncate.
  etrans; [apply elide_blocks_sublist|apply truncate_sublist].
Qed.

Lemma scan_no_sentinel sk js ls : YB_DATA_END ∉ scan sk js ls.
Proof.
  rewrite scan_truncate. intros H.
  apply (truncate_at_sentinel_spec ls).
  eapply elem_of_sublist; [done|apply elide_blocks_sublist].
Qed.

(** In NORMAL, with the flag down, a line that opens no block is kept. *)
Lemma step_normal cur :
  step false false cur false = (false, false, true).
Proof. done. Qed.

Lemma step_opens sk js cur : step sk js cur true = (true, false, false).
Proof. unfold step. cbn. by rewrite andb_false_r. Qed.

Lemma elide_blocks_no_opener ls :
  has_opener ls = false → elide_blocks false false ls = ls.
Proof.
  induction ls as [|cur rest IH]; [done|]. cbn [has_opener elide_blocks].
  intros [Hcur Hrest]%orb_false_elim. rewrite Hcur, step_normal.
  by rewrite IH.
Qed.

Lemma elide_blocks_length ls :
  ∀ sk js, length (elide_blocks sk js ls) ≤ length ls.
Proof. intros sk js. apply sublist_length, elide_blocks_sublist. Qed.

Lemma elide_blocks_opener ls :
  has_opener ls = true → length (elide_blocks false false ls) < length ls.
Proof.
  induction ls as [|cur rest IH]; [done|]. cbn [has_opener elide_blocks].
  destruct (opens_block cur rest) eqn:Hcur.
  - intros _. rewrite step_opens. cbn [length].
    pose proof (elide_blocks_length rest true false). lia.
  - cbn [orb]. intros H%IH. rewrite step_normal. cbn [length]. lia.
Qed.

Lemma normalize_sublist doc : normalize doc `sublist_of` prepare doc.
Proof.
  unfold normalize. etrans; [|apply scan_sublist].
  destruct (rdrop_while_prefix is_blank (scan false false (prepare doc)))
    as [k Hk].
  rewrite Hk at 2. by apply sublist_inserts_r.
Qed.

Lemma prepare_fixed ls :
  (∀ l, l ∈ ls → ∃ x, l = mask_uuid4s (rstrip x)) → prepare ls = ls.
Proof.
  unfold prepare. induction ls as [|l ls IH]; intros H; [done|].
  cbn. rewrite IH.
  - destruct (H l) as [x ->]; [left|]. by rewrite prepare_line_fixed.
  - intros l' Hl'. apply H. by right.
Qed.

Lemma prepare_elem l doc : l ∈ prepare doc → ∃ x, x ∈ doc ∧ l = mask_uuid4s (rstrip x).
Proof.
  unfold prepare. intros (y & -> & (x & -> & Hx)%list_elem_of_fmap)%list_elem_of_fmap.
  by exists x.
Qed.

(** A line the loop sees is blank exactly when it is empty. *)
Lemma is_blank_prepared l doc :
  l ∈ prepare doc → is_blank l = bool_decide (l = []).
Proof.
  intros (x & _ & ->)%prepare_elem.
  apply is_blank_rstripped, rstrip_mask_uuid4s, rstrip_idemp.
Qed.

Lemma prepare_normalize doc : prepare (normalize doc) = normalize doc.
Proof.
  apply prepare_fixed. intros l Hl.
  destruct (prepare_elem l doc) as (x & _ & ->); [|by exists x].
  eapply elem_of_sublist; [done|apply normalize_sublist].
Qed.

Lemma normalize_no_sentinel doc : YB_DATA_END ∉ normalize doc.
Proof.
  unfold normalize. intros H.
  apply (scan_no_sentinel false false (prepare doc)).
  destruct (rdrop_while_prefix is_blank (scan false false (prepare doc)))
    as [k Hk].
  rewrite Hk. apply elem_of_app. by left.
Qed.

(** ** Idempotence *)

(** C1, as stated, fails: the first run removes the block and the blank line
    between a separator and a header line, which the second run then takes
    for the opening of a block. *)
Lemma pipeline_not_idempotent :
  (∃ once twice,
     process idempotence_doc = Done once
     ∧ process once = Done twice
     ∧ once = [SANITIZER_SEPARATOR_LINE; SUPPRESSIONS_USED]
     ∧ twice = []
     ∧ twice ≠ once)
  ∧ main (s_ (SEP53 +:+ NL +:+ SEP53 +:+ NL +:+ "Suppressions used:" +:+ NL
              +:+ SEP53 +:+ NL +:+ NL +:+ "Suppressions used:" +:+ NL))
    = Done (s_ (SEP53 +:+ NL +:+ "Suppressions used:" +:+ NL))
  ∧ main (s_ (SEP53 +:+ NL +:+ "Suppressions used:" +:+ NL)) = Done [LF].
Proof.
  split; [|split; run].
  exists [SANITIZER_SEPARATOR_LINE; SUPPRESSIONS_USED], [].
  split; [run|]. split; [run|]. done.
Qed.

Lemma normalize_twice doc :
  normalize (normalize doc)
  = rdrop_while is_blank (elide_blocks false false (normalize doc)).
Proof.
  unfold normalize at 1. rewrite prepare_normalize, scan_truncate.
  by rewrite truncate_no_sentinel by apply normalize_no_sentinel.
Qed.

(** C1 (amended): a second run of the pipeline changes nothing exactly when
    the output of the first run has no separator line immediately followed
    by the line [Suppressions used:]. *)
Theorem pipeline_idempotent_iff (doc : list str) :
  ∃ once,
    process doc = Done once
    ∧ (process once = Done once ↔ has_opener once = false).
Proof.
  exists (normalize doc). split; [apply process_normalize|].
  rewrite process_normalize, normalize_twice. split.
  - intros [= H]. destruct (has_opener (normalize doc)) eqn:Hop; [|done].
    apply elide_blocks_opener in Hop.
    pose proof (rdrop_while_length is_blank
                  (elide_blocks false false (normalize doc))) as Hlen.
    rewrite H in Hlen. lia.
  - intros Hop. rewrite elide_blocks_no_opener by done.
    f_equal. apply rdrop_while_idemp.
Qed.

(** ** Stages *)

(** C10: the lines written are a subsequence of the trimmed and masked
    lines read. *)
Theorem output_subsequence (doc : list str) :
  ∃ out, process doc = Done out ∧ out `sublist_of` prepare doc.
Proof.
  exists (normalize doc). split; [apply process_normalize|].
  apply normalize_sublist.
Qed.

(** ** The end marker *)

(** C3, as stated, fails: the blank line before the marker is one of the
    first [k - 1] lines and is not written. *)
Lemma sentinel_prefix_not_output :
  first_sentinel_at (prepare sentinel_doc) 3
  ∧ process sentinel_doc = Done [s_ "a"]
  ∧ take (3 - 1) (prepare sentinel_doc) = [s_ "a"; []]
  ∧ process sentinel_doc ≠ Done (take (3 - 1) (prepare sentinel_doc)).
Proof.
  split; [|split; [vm_compute; reflexivity|split; [vm_compute; reflexivity|]]].
  - split; [lia|]. split; [vm_compute; reflexivity|].
    intros [|[|j]] Hj; [vm_compute; congruence..|simpl in Hj; lia].
  - vm_compute. congruence.
Qed.

(** C3 (amended): with the marker first at line [k], the output is what block
    elision and the removal of trailing blank lines leave of the first
    [k - 1] lines, whatever follows the marker; it is exactly these lines
    when they open no block and do not end with a blank line. *)
Theorem sentinel_truncation (doc : list str) (k : nat) :
  first_sentinel_at (prepare doc) k →
  let kept := take (k - 1) (prepare doc) in
  process doc = Done (rdrop_while is_blank (elide_blocks false false kept))
  ∧ (has_opener kept = false →
     (∀ l, last kept = Some l → is_blank l = false) →
     process doc = Done kept).
Proof.
  intros (Hk & Hat & Hfirst) kept.
  assert (process doc
          = Done (rdrop_while is_blank (elide_blocks false false kept))) as H.
  { rewrite process_normalize. unfold normalize.
    by rewrite scan_truncate, (truncate_first _ (k - 1)). }
  split; [done|]. intros Hop Hlast.
  by rewrite H, elide_blocks_no_opener, rdrop_while_fixed.
Qed.

Lemma sentinel_truncation_witness :
  process [s_ "a"; s_ "b  "; YB_DATA_END; s_ "c"; s_ "d"]
  = Done [s_ "a"; s_ "b"].
Proof.
  refine (proj2 (sentinel_truncation
                   [s_ "a"; s_ "b  "; YB_DATA_END; s_ "c"; s_ "d"] 3 _) _ _).
  - split; [lia|]. split; [vm_compute; reflexivity|].
    intros [|[|j]] Hj; [vm_compute; congruence..|simpl in Hj; lia].
  - vm_compute. reflexivity.
  - vm_compute. intros l [= <-]. reflexivity.
Defined.

(** ** The skip-state machine, position by position *)

Lemma opens_block_drop lines k cur :
  lines !! k = Some cur →
  opens_block cur (drop (S k) lines) = opens_at lines k.
Proof.
  intros Hcur. unfold opens_block, opens_at. rewrite Hcur. f_equal.
  - apply bool_decide_ext. split; [by intros ->|by intros [= ->]].
  - destruct (drop (S k) lines) as [|nxt rest] eqn:Hd.
    + apply (f_equal length) in Hd. rewrite length_drop in Hd. simpl in Hd.
      rewrite (lookup_ge_None_2 lines (S k)) by lia.
      by rewrite bool_decide_eq_false_2.
    + apply drop_cons_inv in Hd as [-> _].
      apply bool_decide_ext. split; [by intros ->|by intros [= ->]].
Qed.

(** The iteration at index [k], when the loop gets there. *)
Lemma iterations_next lines k s cur :
  iterations k lines initial = Some s →
  lines !! k = Some cur →
  iterations (S k) lines initial
  = if bool_decide (cur = YB_DATA_END) then None
    else Some (advance s cur (opens_at lines k)).
Proof.
  intros Hk Hcur. pose proof (iterations_scan _ _ _ _ Hk) as [Hi _].
  cbn in Hi. rewrite <- (opens_block_drop _ _ _ Hcur).
  apply iterations_S; [done|]. rewrite Hi. by apply drop_S.
Qed.

(** What the loop has appended after [k] iterations stays at the front of
    what it returns. *)
Lemma iterations_prefix lines k s :
  iterations k lines initial = Some s →
  ∃ rest, scan false false lines = result_lines s ++ rest.
Proof.
  intros Hk. pose proof (iterations_scan _ _ _ _ Hk) as [_ Hscan].
  cbn in Hscan. rewrite drop_0 in Hscan. eauto.
Qed.

(** C2, as stated, fails: at index 2 the machine is in SKIPPING, which it
    entered at index 0, and meets a separator; the header line that follows
    makes the first [if] fire again and the machine stays in SKIPPING. *)
Lemma separator_while_skipping_stays :
  ∃ s0 s s',
    iterations 0 reopen_doc initial = Some s0 ∧ skipping s0 = false
    ∧ iterations 2 reopen_doc initial = Some s ∧ skipping s = true
    ∧ reopen_doc !! 2 = Some SANITIZER_SEPARATOR_LINE
    ∧ iterations 3 reopen_doc initial = Some s' ∧ skipping s' = true
    ∧ process reopen_doc = Done [].
Proof.
  eexists _, _, _. repeat split; try (vm_compute; reflexivity); reflexivity.
Qed.

(** C2 (amended): in SKIPPING, a separator line is dropped; it returns the
    machine to NORMAL, with the just-stopped flag set, when the next line is
    not [Suppressions used:] (or there is no next line), and leaves it in
    SKIPPING when the next line is [Suppressions used:]. *)
Theorem closing_separator (lines : list str) (k : nat) (s : loop_state) :
  iterations k lines initial = Some s →
  skipping s = true →
  lines !! k = Some SANITIZER_SEPARATOR_LINE →
  ∃ s',
    iterations (S k) lines initial = Some s'
    ∧ result_lines s' = result_lines s
    ∧ if bool_decide (lines !! S k = Some SUPPRESSIONS_USED)
      then skipping s' = true ∧ just_stopped_skipping s' = false
      else skipping s' = false ∧ just_stopped_skipping s' = true.
Proof.
  intros Hk Hsk Hcur. eexists. split.
  - rewrite (iterations_next _ _ _ _ Hk Hcur). reflexivity.
  - unfold advance, step, opens_at. rewrite Hsk, Hcur.
    rewrite (bool_decide_eq_true_2 (Some _ = Some _)) by done.
    rewrite (bool_decide_eq_true_2 (SANITIZER_SEPARATOR_LINE = _)) by done.
    case_bool_decide; cbn; done.
Qed.

Lemma closing_separator_witness :
  ∃ s',
    iterations 6 block_doc initial = Some s'
    ∧ result_lines s' = [s_ "keep1"]
    ∧ skipping s' = false ∧ just_stopped_skipping s' = true.
Proof.
  destruct (closing_separator block_doc 5
              {| i := 5; skipping := true; just_stopped_skipping := false;
                 result_lines := [s_ "keep1"] |})
    as (s' & H1 & H2 & H3).
  - vm_compute. reflexivity.
  - reflexivity.
  - vm_compute. reflexivity.
  - exists s'. split; [exact H1|]. split; [exact H2|].
    rewrite bool_decide_eq_false_2 in H3; [exact H3|]. vm_compute. congruence.
Defined.

(** The two ways a line that opens no block leaves NORMAL unchanged. *)
Lemma advance_keep s l :
  skipping s = false →
  just_stopped_skipping s && is_blank l = false →
  advance s l false
  = {| i := i s + 1; skipping := false; just_stopped_skipping := false;
       result_lines := result_lines s ++ [l] |}.
Proof. intros Hsk Hjs. unfold advance, step. by rewrite Hsk, Hjs. Qed.

Lemma advance_absorb s l :
  skipping s = false →
  just_stopped_skipping s = true →
  is_blank l = true →
  advance s l false
  = {| i := i s + 1; skipping := false; just_stopped_skipping := false;
       result_lines := result_lines s |}.
Proof. intros Hsk Hjs Hb. unfold advance, step. by rewrite Hsk, Hjs, Hb. Qed.

Lemma opens_at_not_separator lines k l :
  lines !! k = Some l → l ≠ SANITIZER_SEPARATOR_LINE → opens_at lines k = false.
Proof.
  intros Hl Hsep. unfold opens_at.
  rewrite Hl, bool_decide_eq_false_2; [done|congruence].
Qed.

(** ** The blank line after a block *)

Lemma is_blank_not_marker l :
  is_blank l = true →
  l ≠ YB_DATA_END ∧ l ≠ SANITIZER_SEPARATOR_LINE ∧ l ≠ SUPPRESSIONS_USED.
Proof.
  intros Hl. repeat split; intros ->; vm_compute in Hl; congruence.
Qed.

(** C8, as stated, fails on two counts. The line after the closing separator
    at index 2 of [adjacent_blocks_doc] is not blank, but it opens the next
    block and is not appended. The second of the two blank lines after the
    block of [two_blanks_doc] is appended by the loop and then removed with
    the blank lines at the end, so that no blank line is written. *)
Lemma blank_absorption_counterexample :
  (∃ s s',
     iterations 3 adjacent_blocks_doc initial = Some s
     ∧ skipping s = false ∧ just_stopped_skipping s = true
     ∧ adjacent_blocks_doc !! 3 = Some SANITIZER_SEPARATOR_LINE
     ∧ is_blank SANITIZER_SEPARATOR_LINE = false
     ∧ iterations 4 adjacent_blocks_doc initial = Some s'
     ∧ result_lines s' = result_lines s
     ∧ process adjacent_blocks_doc = Done [])
  ∧ (while_loop (length two_blanks_doc) two_blanks_doc initial = Done [[]]
     ∧ process two_blanks_doc = Done []).
Proof.
  split.
  - eexists _, _. repeat split; try (vm_compute; reflexivity); reflexivity.
  - split; vm_compute; reflexivity.
Qed.

(** C8 (amended): right after a closing separator (NORMAL, just-stopped flag
    set) a blank line is dropped and the flag cleared, so that a second blank
    line is appended to [result_lines]; a line that is not blank, is not the
    end marker and does not open a block is appended and the flag cleared. *)
Theorem one_shot_blank_absorption (lines : list str) (k : nat)
    (s : loop_state) (l : str) :
  iterations k lines initial = Some s →
  skipping s = false →
  just_stopped_skipping s = true →
  lines !! k = Some l →
  (is_blank l = true →
   ∃ s',
     iterations (S k) lines initial = Some s'
     ∧ skipping s' = false ∧ just_stopped_skipping s' = false
     ∧ result_lines s' = result_lines s
     ∧ ∀ l2, lines !! S k = Some l2 → is_blank l2 = true →
         ∃ s'',
           iterations (S (S k)) lines initial = Some s''
           ∧ skipping s'' = false ∧ just_stopped_skipping s'' = false
           ∧ result_lines s'' = result_lines s ++ [l2])
  ∧ (is_blank l = false → l ≠ YB_DATA_END → opens_at lines k = false →
     ∃ s',
       iterations (S k) lines initial = Some s'
       ∧ skipping s' = false ∧ just_stopped_skipping s' = false
       ∧ result_lines s' = result_lines s ++ [l]).
Proof.
  intros Hk Hsk Hjs Hl. split.
  - intros Hb. destruct (is_blank_not_marker _ Hb) as (Hend & Hsep & _).
    pose proof (iterations_next _ _ _ _ Hk Hl) as Hn.
    rewrite bool_decide_eq_false_2, (opens_at_not_separator _ _ _ Hl Hsep),
      advance_absorb in Hn by done.
    eexists. split; [exact Hn|]. repeat split.
    intros l2 Hl2 Hb2.
    destruct (is_blank_not_marker _ Hb2) as (Hend2 & Hsep2 & _).
    pose proof (iterations_next _ _ _ _ Hn Hl2) as Hn2.
    rewrite bool_decide_eq_false_2, (opens_at_not_separator _ _ _ Hl2 Hsep2),
      advance_keep in Hn2 by done.
    eexists. split; [exact Hn2|]. done.
  - intros Hb Hend Hop.
    pose proof (iterations_next _ _ _ _ Hk Hl) as Hn.
    rewrite bool_decide_eq_false_2, Hop, advance_keep in Hn
      by (done || by rewrite Hb, andb_false_r).
    eexists. split; [exact Hn|]. done.
Qed.

Lemma one_shot_blank_absorption_witness :
  ∃ s',
    iterations 7 block_two_blanks_doc initial = Some s'
    ∧ result_lines s' = [s_ "keep1"]
    ∧ ∃ s'',
        iterations 8 block_two_blanks_doc initial = Some s''
        ∧ result_lines s'' = [s_ "keep1"; []].
Proof.
  pose proof (one_shot_blank_absorption block_two_blanks_doc 6
    {| i := 6; skipping := false; just_stopped_skipping := true;
       result_lines := [s_ "keep1"] |} []) as H.
  destruct H as [H _].
  - vm_compute. reflexivity.
  - reflexivity.
  - reflexivity.
  - vm_compute. reflexivity.
  - destruct H as (s' & H1 & _ & _ & H2 & H3); [vm_compute; reflexivity|].
    exists s'. split; [exact H1|]. split; [exact H2|].
    destruct (H3 []) as (s'' & H4 & _ & _ & H5).
    + vm_compute. reflexivity.
    + vm_compute. reflexivity.
    + exists s''. split; [exact H4|exact H5].
Defined.

(** ** Markers that open nothing *)

Lemma loop_body_returns lines s :
  i s < length lines → ∃ c, loop_body lines s = Done c.
Proof.
  intros Hi. destruct (drop_lt_cons lines (i s) Hi) as (cur & rest & Hd).
  rewrite (loop_body_at _ _ _ _ Hd). case_bool_decide; eauto.
Qed.

(** C9: in NORMAL, a separator line whose next line is not the header (or
    that is the last line) and a header line open no block and are written
    as they are; the body of the loop never raises [IndexError]. *)
Theorem malformed_markers_pass_through :
  (∀ lines s, i s < length lines → ∃ c, loop_body lines s = Done c)
  ∧ ∀ (doc : list str) (k : nat) (s : loop_state) (l : str),
      iterations k (prepare doc) initial = Some s →
      skipping s = false →
      prepare doc !! k = Some l →
      (l = SANITIZER_SEPARATOR_LINE
       ∧ prepare doc !! S k ≠ Some SUPPRESSIONS_USED)
      ∨ l = SUPPRESSIONS_USED →
      (∃ s',
         iterations (S k) (prepare doc) initial = Some s'
         ∧ skipping s' = false
         ∧ result_lines s' = result_lines s ++ [l])
      ∧ ∃ out,
          process doc = Done out
          ∧ (result_lines s ++ [l]) `prefix_of` out.
Proof.
  split; [apply loop_body_returns|].
  intros doc k s l Hk Hsk Hl Hcase.
  assert (l ≠ YB_DATA_END ∧ is_blank l = false
          ∧ opens_at (prepare doc) k = false) as (Hend & Hb & Hop).
  { destruct Hcase as [[-> Hnext]| ->].
    - repeat split; [done|].
      unfold opens_at. rewrite (bool_decide_eq_false_2 (_ !! S k = _)) by done.
      apply andb_false_r.
    - repeat split; [done|]. by eapply opens_at_not_separator. }
  pose proof (iterations_next _ _ _ _ Hk Hl) as Hn.
  rewrite bool_decide_eq_false_2, Hop, advance_keep in Hn
    by (done || by rewrite Hb, andb_false_r).
  split; [eexists; split; [exact Hn|done]|].
  exists (normalize doc). split; [apply process_normalize|].
  destruct (iterations_prefix _ _ _ Hn) as [rest Hrest]. cbn in Hrest.
  unfold normalize. rewrite Hrest, <- app_assoc. cbn [app].
  rewrite rdrop_while_keeps by done.
  exists (rdrop_while is_blank rest). by rewrite <- app_assoc.
Qed.

Lemma malformed_markers_witness :
  (∃ out,
     process stray_markers_doc = Done out
     ∧ [SUPPRESSIONS_USED] `prefix_of` out)
  ∧ (∃ out,
       process stray_markers_doc = Done out
       ∧ [SUPPRESSIONS_USED; s_ "x"; SANITIZER_SEPARATOR_LINE] `prefix_of` out).
Proof.
  split.
  - refine (proj2 (proj2 malformed_markers_pass_through stray_markers_doc 0
                     initial SUPPRESSIONS_USED _ _ _ _)).
    + reflexivity.
    + reflexivity.
    + vm_compute. reflexivity.
    + right. reflexivity.
  - refine (proj2 (proj2 malformed_markers_pass_through stray_markers_doc 2
                     {| i := 2; skipping := false;
                        just_stopped_skipping := false;
                        result_lines := [SUPPRESSIONS_USED; s_ "x"] |}
                     SANITIZER_SEPARATOR_LINE _ _ _ _)).
    + vm_compute. reflexivity.
    + reflexivity.
    + vm_compute. reflexivity.
    + left. split; [reflexivity|]. vm_compute. congruence.
Defined.

(** ** Masking: what is kept and what is gone *)

(** C6: the masked line has the length of the line; the matches found are
    matches of the pattern, apart from each other and leftmost; each is
    replaced by the mask and every character outside them is unchanged. *)
Theorem mask_uuid4s_preserves (line : str) :
  let starts := finditer_starts uuid4_re line in
  length (mask_uuid4s line) = length line
  ∧ length UUID_MASK = length uuid4_re
  ∧ spaced 0 starts
  ∧ (∀ st, st ∈ starts →
       full_match uuid4_re (slice st (st + 36) line)
       ∧ slice st (st + 36) (mask_uuid4s line) = UUID_MASK)
  ∧ (∀ j, match_here uuid4_re (drop j line) = true →
       ∃ st, st ∈ starts ∧ st ≤ j < st + 36)
  ∧ (∀ j, (∀ st, st ∈ starts → ¬ (st ≤ j < st + 36)) →
       mask_uuid4s line !! j = line !! j).
Proof.
  cbn zeta. unfold finditer_starts. rewrite mask_uuid4s_scan.
  split; [apply length_mask_scan|]. split; [done|].
  split; [apply finditer_spaced|]. split; [|split].
  - intros st Hst. split.
    + apply finditer_matches in Hst as [_ Hm]. rewrite Nat.sub_0_r in Hm.
      apply match_here_full in Hm. unfold slice.
      by replace (st + 36 - st) with (length uuid4_re)
        by (rewrite length_uuid4_re; lia).
    + apply mask_scan_spans in Hst. by rewrite Nat.sub_0_r in Hst.
  - intros j Hj. by apply (finditer_leftmost line 0 j).
  - intros j Hj. by apply (mask_scan_outside line 0 j).
Qed.

(** C7: no substring of a masked line matches the pattern. *)
Theorem no_uuid_after_masking (line pre u post : str) :
  mask_uuid4s line = pre ++ u ++ post → ¬ full_match uuid4_re u.
Proof.
  intros Hline Hu. pose proof (mask_scan_no_uuid line (length pre)) as H.
  rewrite <- mask_uuid4s_scan, Hline, drop_app_length in H.
  by rewrite full_match_here in H.
Qed.

Lemma no_uuid_after_masking_witness :
  ¬ full_match uuid4_re (s_ "********-****-4***-****-************").
Proof.
  refine (no_uuid_after_masking
            (s_ "id=123e4567-e89b-42d3-a456-426614174000 done")
            (s_ "id=") _ (s_ " done") _).
  vm_compute. reflexivity.
Defined.

(** ** The text written *)

Lemma split_after_LF_shape t : Forall line_shape (split_after_LF t).
Proof.
  induction t as [|c t IH]; [constructor|]. cbn [split_after_LF].
  case_bool_decide as Hc.
  - constructor; [|done]. exists []. split; [apply not_elem_of_nil|].
    right. by rewrite Hc.
  - destruct (split_after_LF t) as [|l ls].
    + repeat constructor. exists [c]. split; [|by left].
      by intros <-%list_elem_of_singleton.
    + inversion IH as [|? ? (body & Hbody & Hl) Hls]; subst.
      constructor; [|done]. exists (c :: body). split.
      * by apply not_elem_of_cons.
      * destruct Hl as [->| ->]; [by left|by right].
Qed.

Lemma readlines_shape t : Forall line_shape (readlines t).
Proof. apply split_after_LF_shape. Qed.

Lemma rstrip_no_LF x : line_shape x → LF ∉ rstrip x.
Proof.
  intros (body & Hbody & Hx) H. apply Hbody.
  assert (rstrip x = rstrip body) as Hr.
  { destruct Hx as [->| ->]; [done|]. unfold rstrip.
    by rewrite rdrop_while_snoc. }
  rewrite Hr in H. eapply elem_of_prefix; [done|apply rdrop_while_prefix].
Qed.

Lemma mask_uuid4s_no_LF s : LF ∉ s → LF ∉ mask_uuid4s s.
Proof.
  intros Hs H. rewrite mask_uuid4s_scan in H.
  apply list_elem_of_lookup_1 in H as [j Hj].
  destruct (Forall2_lookup_r _ _ _ _ _ (mask_scan_chars s) Hj)
    as (a & Ha & [<-|Hmask]).
  - apply Hs. by eapply list_elem_of_lookup_2.
  - by pose proof (proj1 (Forall_forall _ _) mask_chars_not_space _ Hmask).
Qed.

Lemma join_lines_snoc ls l :
  ∃ front, join_lines (ls ++ [l]) = front ++ l.
Proof.
  induction ls as [|x ls [front IH]]; [by exists []|].
  destruct ls as [|y ls].
  - exists (x ++ [LF]). cbn. by rewrite <- app_assoc.
  - exists (x ++ LF :: front). change (join_lines ((x :: y :: ls) ++ [l]))
      with (x ++ LF :: join_lines ((y :: ls) ++ [l])).
    rewrite IH. by rewrite <- app_assoc.
Qed.

Lemma normalize_line_rstripped doc l : l ∈ normalize doc → rstrip l = l.
Proof.
  intros Hl. destruct (prepare_elem l doc) as (x & _ & ->).
  - eapply elem_of_sublist; [done|apply normalize_sublist].
  - apply rstrip_mask_uuid4s, rstrip_idemp.
Qed.

(** Joining with line feeds and adding one is ending every line with one. *)
Lemma join_lines_concat ls :
  ls ≠ [] → join_lines ls ++ [LF] = concat ((λ l, l ++ [LF]) <$> ls).
Proof.
  induction ls as [|l ls IH]; [done|]. intros _.
  destruct ls as [|l2 ls].
  - cbn. by rewrite app_nil_r.
  - change (join_lines (l :: l2 :: ls))
      with (l ++ LF :: join_lines (l2 :: ls)).
    rewrite fmap_cons. cbn [concat].
    rewrite <- IH by done. by rewrite <- !app_assoc.
Qed.

(** C5: the text written is every line that is left followed by one line
    feed, in order, and the single line feed when no line is left (as for
    the empty file); no line that is left contains a line feed, the last of
    them is not blank, and the text ends with a line feed and not with two. *)
Theorem serialization (text : str) :
  ∃ out written,
    process (readlines text) = Done out
    ∧ main text = Done written
    ∧ written = match out with
                | [] => [LF]
                | _ :: _ => concat ((λ l, l ++ [LF]) <$> out)
                end
    ∧ (∀ l, l ∈ out → LF ∉ l)
    ∧ (∀ l, last out = Some l → is_blank l = false)
    ∧ (∃ body, written = body ++ [LF])
    ∧ (∀ pre, written ≠ pre ++ [LF; LF])
    ∧ (text = [] → written = [LF]).
Proof.
  exists (normalize (readlines text)),
    (join_lines (normalize (readlines text)) ++ [LF]).
  split; [apply process_normalize|].
  split; [unfold main; by rewrite process_normalize|].
  split; [|split; [|split; [|split; [|split]]]].
  - destruct (normalize (readlines text)) as [|l ls] eqn:Hout; [done|].
    by apply join_lines_concat.
  - intros l Hl.
    destruct (prepare_elem l (readlines text)) as (x & Hx & ->).
    { eapply elem_of_sublist; [done|apply normalize_sublist]. }
    apply mask_uuid4s_no_LF, rstrip_no_LF.
    by apply (proj1 (Forall_forall _ _) (readlines_shape text)).
  - intros l. apply rdrop_while_last.
  - by eexists.
  - intros pre Heq.
    destruct (last (normalize (readlines text))) as [l|] eqn:Hlast.
    2:{ apply last_None in Hlast. rewrite Hlast in Heq.
        apply (f_equal length) in Heq. rewrite !length_app in Heq.
        simpl in Heq. lia. }
    pose proof (rdrop_while_last is_blank _ _ Hlast) as Hb.
    assert (rstrip l = l) as Hr.
    { apply (normalize_line_rstripped (readlines text)).
      by apply last_Some_elem_of. }
    apply last_Some in Hlast as [ls Hout]. rewrite Hout in Heq.
    destruct l as [|c l _] using rev_ind; [done|].
    destruct (join_lines_snoc ls (l ++ [c])) as [front Hfront].
    rewrite Hfront in Heq.
    replace (pre ++ [LF; LF]) with ((pre ++ [LF]) ++ [LF]) in Heq
      by (by rewrite <- app_assoc).
    apply app_inj_tail in Heq as [Heq _].
    rewrite app_assoc in Heq. apply app_inj_tail in Heq as [_ ->].
    pose proof (proj1 (rstrip_fixed_iff _) Hr LF) as Hsp.
    rewrite last_snoc in Hsp. by specialize (Hsp eq_refl).
  - by intros ->.
Qed.

(** ** Masking: fixed points and trailing whitespace *)

Lemma match_here_split p (line : str) j :
  match_here p (drop j line) = true →
  ∃ pre u post, line = pre ++ u ++ post ∧ full_match p u.
Proof.
  intros Hm. apply match_here_full in Hm.
  exists (take j line), (take (length p) (drop j line)),
    (drop (length p) (drop j line)).
  split; [|done]. by rewrite !take_drop.
Qed.

(** X1: a line is left as it is by [mask_uuid4s] exactly when no substring
    of it matches the pattern; masking a masked line changes nothing. *)
Theorem mask_uuid4s_fixed_iff (line : str) :
  (mask_uuid4s line = line
   ↔ ∀ pre u post, line = pre ++ u ++ post → ¬ full_match uuid4_re u)
  ∧ mask_uuid4s (mask_uuid4s line) = mask_uuid4s line.
Proof.
  split; [|apply mask_uuid4s_idemp]. rewrite mask_uuid4s_scan. split.
  - intros Hfix pre u post Hline Hu.
    pose proof (mask_scan_no_uuid line (length pre)) as H.
    rewrite Hfix, Hline, drop_app_length in H.
    by rewrite full_match_here in H.
  - intros Hno. apply mask_scan_fixed. intros j.
    apply not_true_is_false. intros Hm.
    destruct (match_here_split _ _ _ Hm) as (pre & u & post & Hline & Hu).
    by apply (Hno pre u post).
Qed.

Lemma space_not_in_class c :
  isspace c = true →
  in_class hexdigit c = false ∧ in_class (lit "-") c = false
  ∧ in_class (lit "4") c = false ∧ in_class variant c = false.
Proof.
  destruct c as [[] [] [] [] [] [] [] []]; vm_compute; intros H;
    first [discriminate H | repeat split].
Qed.

Lemma uuid4_re_rejects_space c :
  isspace c = true → Forall (λ cl, in_class cl c = false) uuid4_re.
Proof.
  intros (Hhex & Hdash & Hfour & Hvar)%space_not_in_class.
  unfold uuid4_re. cbn [replicate app]. repeat constructor; assumption.
Qed.

Lemma match_here_snoc_rejected p c :
  Forall (λ cl, in_class cl c = false) p →
  ∀ s, match_here p (s ++ [c]) = match_here p s.
Proof.
  intros Hp s. revert p Hp. induction s as [|a s IH]; intros [|cl p] Hp; try done.
  - inversion Hp as [|? ? Hcl _]; subst. cbn. by rewrite Hcl.
  - inversion Hp; subst. cbn [app match_here].
    destruct (in_class cl a); [by apply IH|done].
Qed.

Lemma mask_scan_snoc_space s c :
  isspace c = true → mask_scan 0 (s ++ [c]) = mask_scan 0 s ++ [c].
Proof.
  intros Hc. pose proof (uuid4_re_rejects_space c Hc) as Hre.
  induction s as [|a t Hm IH|s Hm IH] using mask_ind.
  - cbn [app]. rewrite mask_scan_no_match; [done|].
    by rewrite <- (match_here_snoc_rejected _ _ Hre []) at 1.
  - cbn [app]. rewrite !mask_scan_no_match, IH; [done..|].
    change (a :: t ++ [c]) with ((a :: t) ++ [c]).
    by rewrite match_here_snoc_rejected.
  - rewrite (mask_scan_match (s ++ [c])), (mask_scan_match s);
      [|done|by rewrite match_here_snoc_rejected].
    apply match_here_length in Hm. rewrite length_uuid4_re in Hm.
    rewrite drop_app_le by done. by rewrite IH, app_assoc.
Qed.

(** X2: the two stages applied to each line commute: trimming the masked
    line gives the masked trimmed line. *)
Theorem rstrip_mask_commute (s : str) :
  rstrip (mask_uuid4s s) = mask_uuid4s (rstrip s).
Proof.
  induction s as [|c s IH] using rev_ind; [done|].
  destruct (isspace c) eqn:Hc.
  - rewrite !mask_uuid4s_scan, mask_scan_snoc_space by done.
    rewrite <- !mask_uuid4s_scan. unfold rstrip in *.
    by rewrite !rdrop_while_snoc, Hc.
  - assert (rstrip (s ++ [c]) = s ++ [c]) as Hfix.
    { unfold rstrip. by rewrite rdrop_while_snoc, Hc. }
    rewrite Hfix. by apply rstrip_mask_uuid4s.
Qed.

(** ** The loop: invariant and reach *)

Lemma iterations_snoc n :
  ∀ lines s,
    iterations (S n) lines s
    = match iterations n lines s with
      | Some s1 =>
          if bool_decide (i s1 < length lines) then
            match loop_body lines s1 with
            | Done (Next s') => Some s'
            | _ => None
            end
          else None
      | None => None
      end.
Proof.
  induction n as [|n IH]; intros lines s.
  - cbn [iterations]. case_bool_decide; [|done].
    by destruct (loop_body lines s) as [[?|?]| |].
  - change (iterations (S (S n)) lines s)
      with (if bool_decide (i s < length lines) then
              match loop_body lines s with
              | Done (Next s') => iterations (S n) lines s'
              | _ => None
              end
            else None).
    cbn [iterations]. case_bool_decide; [|done].
    destruct (loop_body lines s) as [[s'|?]| |]; try done. apply IH.
Qed.

(** The last of [S k] iterations, seen from the state before it. *)
Lemma iterations_last k lines s' :
  iterations (S k) lines initial = Some s' →
  ∃ s cur,
    iterations k lines initial = Some s
    ∧ lines !! k = Some cur
    ∧ cur ≠ YB_DATA_END
    ∧ s' = advance s cur (opens_at lines k).
Proof.
  intros HS. pose proof HS as HS'. rewrite iterations_snoc in HS'.
  destruct (iterations k lines initial) as [s|] eqn:Hk; [|done].
  pose proof (iterations_scan _ _ _ _ Hk) as [Hi _]. cbn in Hi.
  case_bool_decide as Hlt; [|done]. clear HS'.
  destruct (lookup_lt_is_Some_2 lines k) as [cur Hcur]; [lia|].
  rewrite (iterations_next _ _ _ _ Hk Hcur) in HS.
  case_bool_decide; [done|]. injection HS as <-. by exists s, cur.
Qed.

Lemma advance_flags s cur opens :
  skipping (advance s cur opens)
  && just_stopped_skipping (advance s cur opens) = false.
Proof.
  unfold advance, step.
  destruct opens, (skipping s), (just_stopped_skipping s), (is_blank cur),
    (bool_decide (cur = SANITIZER_SEPARATOR_LINE)); done.
Qed.

Lemma advance_result_lines s cur opens :
  result_lines (advance s cur opens) = result_lines s
  ∨ result_lines (advance s cur opens) = result_lines s ++ [cur].
Proof.
  unfold advance. destruct (step _ _ _ _) as [[? ?] [|]]; cbn; auto.
Qed.

(** The loop makes [k] iterations only over lines that are there and are
    not the end marker. *)
Lemma iterations_reach (lines : list str) (k : nat) (s : loop_state) :
  iterations k lines initial = Some s →
  k ≤ length lines ∧ YB_DATA_END ∉ take k lines.
Proof.
  revert s. induction k as [|k IH]; intros s Hk.
  - split; [lia|apply not_elem_of_nil].
  - destruct (iterations_last _ _ _ Hk) as (s0 & cur & Hk0 & Hcur & Hend & _).
    destruct (IH _ Hk0) as [_ Hno]. split.
    + apply lookup_lt_Some in Hcur. lia.
    + rewrite (take_S_r _ _ _ Hcur).
      intros [H|H%list_elem_of_singleton]%elem_of_app; [done|congruence].
Qed.

(** X3: the loop invariant. At the top of iteration [k] the index is [k],
    the two flags are not both set, the lines appended so far are a
    subsequence of the first [k] lines, and none of these is the end
    marker. *)
Theorem loop_invariant (lines : list str) (k : nat) (s : loop_state) :
  iterations k lines initial = Some s →
  i s = k
  ∧ k ≤ length lines
  ∧ skipping s && just_stopped_skipping s = false
  ∧ result_lines s `sublist_of` take k lines
  ∧ YB_DATA_END ∉ take k lines.
Proof.
  intros Hk. destruct (iterations_reach _ _ _ Hk) as [Hlen Hno].
  assert (i s = k
          ∧ skipping s && just_stopped_skipping s = false
          ∧ result_lines s `sublist_of` take k lines) as (? & ? & ?);
    [|done].
  clear Hlen Hno. revert s Hk. induction k as [|k IH]; intros s Hk.
  - injection Hk as <-. by cbn.
  - destruct (iterations_last _ _ _ Hk) as (s0 & cur & Hk0 & Hcur & Hend & ->).
    destruct (IH _ Hk0) as (Hi & _ & Hsub).
    rewrite (take_S_r _ _ _ Hcur). repeat split.
    + rewrite advance_i. lia.
    + apply advance_flags.
    + destruct (advance_result_lines s0 cur (opens_at lines k)) as [-> | ->].
      * by apply sublist_inserts_r.
      * by apply sublist_app.
Qed.

Lemma loop_invariant_witness :
  [s_ "keep1"] `sublist_of` take 6 block_two_blanks_doc.
Proof.
  refine (proj1 (proj2 (proj2 (proj2
    (loop_invariant block_two_blanks_doc 6
       {| i := 6; skipping := false; just_stopped_skipping := true;
          result_lines := [s_ "keep1"] |} _))))).
  vm_compute. reflexivity.
Defined.

(** X4: the loop gets to the top of iteration [k] exactly when the list has
    at least [k] lines and none of its first [k] lines is the end marker. *)
Theorem loop_reaches_iff (lines : list str) (k : nat) :
  is_Some (iterations k lines initial)
  ↔ k ≤ length lines ∧ YB_DATA_END ∉ take k lines.
Proof.
  split.
  - intros [s Hk].
    by apply (iterations_reach _ _ s).
  - induction k as [|k IH]; [by eexists|]. intros [Hlen Hno].
    destruct (lookup_lt_is_Some_2 lines k) as [cur Hcur]; [lia|].
    rewrite (take_S_r _ _ _ Hcur) in Hno.
    apply not_elem_of_app in Hno as [Hno Hcur'].
    destruct IH as [s Hk]; [split; [lia|done]|].
    rewrite (iterations_next _ _ _ _ Hk Hcur).
    rewrite bool_decide_eq_false_2; [by eexists|].
    intros ->. apply Hcur'. by left.
Qed.

(** ** The two passes of the specification and the loop *)

Lemma opens_block_head cur rest :
  opens_block cur rest
  = bool_decide (cur = SANITIZER_SEPARATOR_LINE)
    && bool_decide (head rest = Some SUPPRESSIONS_USED).
Proof.
  unfold opens_block. f_equal. destruct rest as [|nxt rest]; cbn [head].
  - by rewrite bool_decide_eq_false_2.
  - apply bool_decide_ext. split; [by intros ->|by intros [= ->]].
Qed.

(** Unless the loop is skipping and its first [if] fires, one iteration of
    the loop is one step of the machine of the specification. *)
Lemma spec_step_step sk js cur rest :
  sk && opens_block cur rest = false →
  spec_step (spec_of sk js) cur (head rest)
  = (spec_of (step sk js cur (opens_block cur rest)).1.1
             (step sk js cur (opens_block cur rest)).1.2,
     (step sk js cur (opens_block cur rest)).2).
Proof.
  rewrite opens_block_head. unfold spec_step, spec_of, step.
  destruct sk, js, (bool_decide (cur = SANITIZER_SEPARATOR_LINE)),
    (bool_decide (head rest = Some SUPPRESSIONS_USED)), (is_blank cur); done.
Qed.

(** A machine that holds back no more than the loop before a line holds
    back no more after it, and emits the line when the loop appends it. *)
Lemma spec_step_rank st sk js cur rest :
  spec_rank st ≤ loop_rank sk js →
  spec_rank (spec_step st cur (head rest)).1
  ≤ loop_rank (step sk js cur (opens_block cur rest)).1.1
              (step sk js cur (opens_block cur rest)).1.2
  ∧ ((step sk js cur (opens_block cur rest)).2 = true →
     (spec_step st cur (head rest)).2 = true).
Proof.
  rewrite opens_block_head. unfold spec_step, step, spec_rank, loop_rank.
  destruct st as [[|]|], sk, js,
    (bool_decide (cur = SANITIZER_SEPARATOR_LINE)),
    (bool_decide (head rest = Some SUPPRESSIONS_USED)), (is_blank cur);
    cbn; intros; split; (lia || done).
Qed.

Lemma spec_elide_longer ls :
  ∀ st sk js, spec_rank st ≤ loop_rank sk js →
    length (elide_blocks sk js ls) ≤ length (spec_elide st ls).
Proof.
  induction ls as [|cur rest IH]; intros st sk js Hr; [done|].
  cbn [elide_blocks spec_elide].
  destruct (spec_step_rank st sk js cur rest Hr) as [Hr' Hem].
  destruct (step sk js cur (opens_block cur rest)) as [[sk' js'] ap].
  destruct (spec_step st cur (head rest)) as [st' em].
  cbn [fst snd] in *. specialize (IH _ _ _ Hr').
  destruct ap; [rewrite Hem by done|destruct em]; cbn [length]; lia.
Qed.

(** Where the loop, skipping, meets a separator line followed by the header
    line, the machine of the specification leaves SKIPPING and emits the
    header line, which the loop drops. *)
Lemma reopening_longer js rest :
  length (elide_blocks true js
            (SANITIZER_SEPARATOR_LINE :: SUPPRESSIONS_USED :: rest))
  < length (spec_elide SKIPPING
              (SANITIZER_SEPARATOR_LINE :: SUPPRESSIONS_USED :: rest)).
Proof.
  assert (elide_blocks true js
            (SANITIZER_SEPARATOR_LINE :: SUPPRESSIONS_USED :: rest)
          = elide_blocks true false rest) as ->.
  { cbn [elide_blocks].
    assert (opens_block SANITIZER_SEPARATOR_LINE (SUPPRESSIONS_USED :: rest)
            = true) as -> by (vm_compute; reflexivity).
    rewrite step_opens.
    assert (opens_block SUPPRESSIONS_USED rest = false) as ->
      by (unfold opens_block; by rewrite bool_decide_eq_false_2).
    unfold step. by rewrite (bool_decide_eq_false_2 (SUPPRESSIONS_USED = _)). }
  assert (spec_elide SKIPPING
            (SANITIZER_SEPARATOR_LINE :: SUPPRESSIONS_USED :: rest)
          = SUPPRESSIONS_USED :: spec_elide (NORMAL false) rest) as ->.
  { cbn [spec_elide]. unfold spec_step.
    rewrite (bool_decide_eq_true_2 (SANITIZER_SEPARATOR_LINE = _)) by done.
    rewrite (bool_decide_eq_false_2 (SUPPRESSIONS_USED = _)) by done.
    done. }
  cbn [length]. apply Nat.lt_succ_r, spec_elide_longer. cbn. lia.
Qed.

(** From an iteration on, the loop and the machine of the specification go
    together as long as the loop does not meet, skipping, a separator line
    followed by the header line. *)
Lemma loop_follows_spec lines ls :
  ∀ n s,
    iterations n lines initial = Some s → drop n lines = ls →
    (∀ k s', iterations k lines initial = Some s' → skipping s' = true →
             lines !! k = Some SANITIZER_SEPARATOR_LINE →
             lines !! S k ≠ Some SUPPRESSIONS_USED) →
    scan (skipping s) (just_stopped_skipping s) ls
    = spec_elide (spec_of (skipping s) (just_stopped_skipping s))
        (truncate_at_sentinel ls).
Proof.
  induction ls as [|cur rest IH]; intros n s Hn Hd Hall; [done|].
  pose proof Hd as [Hcur Hrest]%drop_cons_inv.
  cbn [scan truncate_at_sentinel]. case_bool_decide as Hend; [done|].
  pose proof (iterations_next _ _ _ _ Hn Hcur) as Hnext.
  rewrite bool_decide_eq_false_2 in Hnext by done.
  rewrite <- (opens_block_drop _ _ _ Hcur), Hrest in Hnext.
  assert (skipping s && opens_block cur rest = false) as Hsync.
  { rewrite <- Hrest, (opens_block_drop _ _ _ Hcur). unfold opens_at.
    destruct (skipping s) eqn:Hsk; [|done]. cbn [andb].
    case_bool_decide as Hsep; [|done]. cbn [andb].
    apply bool_decide_eq_false_2. by eapply Hall. }
  specialize (IH (S n) _ Hnext Hrest Hall).
  cbn [spec_elide].
  rewrite (spec_step_step _ _ cur (truncate_at_sentinel rest))
    by (by rewrite opens_block_truncate).
  rewrite opens_block_truncate. unfold advance in IH.
  destruct (step _ _ cur (opens_block cur rest)) as [[sk' js'] ap].
  cbn [skipping just_stopped_skipping fst snd] in *.
  destruct ap; by rewrite IH.
Qed.

(** Once the loop meets, skipping, a separator line followed by the header
    line, it returns fewer lines than the two passes. *)
Lemma loop_shorter_than_spec lines ls :
  ∀ n s,
    iterations n lines initial = Some s → drop n lines = ls →
    (∃ k s', n ≤ k ∧ iterations k lines initial = Some s'
             ∧ skipping s' = true
             ∧ lines !! k = Some SANITIZER_SEPARATOR_LINE
             ∧ lines !! S k = Some SUPPRESSIONS_USED) →
    length (scan (skipping s) (just_stopped_skipping s) ls)
    < length (spec_elide (spec_of (skipping s) (just_stopped_skipping s))
                (truncate_at_sentinel ls)).
Proof.
  induction ls as [|cur rest IH];
    intros n s Hn Hd (k & s' & Hle & Hk & Hsk & Hsep & Hhdr).
  - apply lookup_lt_Some in Hsep. apply (f_equal length) in Hd.
    rewrite length_drop in Hd. simpl in Hd. lia.
  - pose proof Hd as [Hcur Hrest]%drop_cons_inv.
    assert (cur ≠ YB_DATA_END) as Hend.
    { intros ->. destruct (iterations_reach _ _ _ Hk) as [_ Hno].
      destruct (decide (k = n)) as [->|Hne].
      - rewrite Hcur in Hsep. by vm_compute in Hsep.
      - apply Hno. apply list_elem_of_lookup. exists n.
        rewrite lookup_take_lt by lia. done. }
    pose proof (iterations_next _ _ _ _ Hn Hcur) as Hnext.
    rewrite bool_decide_eq_false_2 in Hnext by done.
    rewrite <- (opens_block_drop _ _ _ Hcur), Hrest in Hnext.
    destruct (skipping s && opens_block cur rest) eqn:Hsync.
    + apply andb_true_iff in Hsync as [Hs Hop]. unfold opens_block in Hop.
      apply andb_true_iff in Hop as [Hc Hnxt].
      apply bool_decide_eq_true in Hc as ->.
      destruct rest as [|nxt rest']; [done|].
      apply bool_decide_eq_true in Hnxt as ->.
      rewrite Hs, scan_truncate.
      change (truncate_at_sentinel
                (SANITIZER_SEPARATOR_LINE :: SUPPRESSIONS_USED :: rest'))
        with (SANITIZER_SEPARATOR_LINE :: SUPPRESSIONS_USED
              :: truncate_at_sentinel rest').
      apply reopening_longer.
    + assert (n < k) as Hlt.
      { destruct (decide (k = n)) as [->|]; [|lia].
        rewrite Hn in Hk. injection Hk as <-.
        rewrite <- Hrest, (opens_block_drop _ _ _ Hcur) in Hsync.
        unfold opens_at in Hsync. rewrite Hsk, Hsep, Hhdr in Hsync.
        by rewrite !bool_decide_eq_true_2 in Hsync. }
      specialize (IH (S n) _ Hnext Hrest).
      cbn [scan truncate_at_sentinel].
      rewrite !bool_decide_eq_false_2 by done. cbn [spec_elide].
      rewrite (spec_step_step _ _ cur (truncate_at_sentinel rest))
        by (by rewrite opens_block_truncate).
      rewrite opens_block_truncate. unfold advance in IH.
      destruct (step _ _ cur (opens_block cur rest)) as [[sk' js'] ap].
      cbn [skipping just_stopped_skipping fst snd] in *.
      assert (length (scan sk' js' rest)
              < length (spec_elide (spec_of sk' js')
                          (truncate_at_sentinel rest))) as Hrec.
      { apply IH. exists k, s'. repeat split; [lia|done..]. }
      destruct ap; cbn [length]; lia.
Qed.

(** C4, as stated, fails when stage 4 is the machine the specification
    describes: on a block whose second separator is followed by the header
    line again, that machine leaves SKIPPING at the second separator and
    emits what follows, while the loop stays in SKIPPING and returns
    nothing. The end marker does not occur. *)
Lemma two_passes_differ_from_loop :
  truncate_at_sentinel reopen_doc = reopen_doc
  ∧ spec_stages_3_4 reopen_doc = [SUPPRESSIONS_USED; s_ "x"]
  ∧ while_loop (length reopen_doc) reopen_doc initial = Done []
  ∧ while_loop (length reopen_doc) reopen_doc initial
    ≠ Done (spec_stages_3_4 reopen_doc).
Proof.
  repeat split; try (vm_compute; reflexivity). vm_compute. congruence.
Qed.

(** C4 (amended): cutting the whole list at the end marker and then running
    the elision machine of the specification over what is left gives what
    the single loop returns exactly for the lists in which the loop never
    meets, while skipping, a separator line that is immediately followed by
    the header line. *)
Theorem two_passes_equal_loop_iff (lines : list str) :
  while_loop (length lines) lines initial = Done (spec_stages_3_4 lines)
  ↔ ∀ k s, iterations k lines initial = Some s → skipping s = true →
           lines !! k = Some SANITIZER_SEPARATOR_LINE →
           lines !! S k ≠ Some SUPPRESSIONS_USED.
Proof.
  rewrite while_loop_scan by (simpl; lia).
  cbn [initial i skipping just_stopped_skipping result_lines app].
  rewrite drop_0. unfold spec_stages_3_4. split.
  - intros [= Heq] k s Hk Hsk Hsep Hhdr.
    assert (length (scan false false lines)
            < length (spec_elide (NORMAL false) (truncate_at_sentinel lines)))
      as Hlt.
    { apply (loop_shorter_than_spec lines lines 0 initial eq_refl (drop_0 _)).
      exists k, s. repeat split; [lia|done..]. }
    rewrite Heq in Hlt. lia.
  - intros Hall. f_equal.
    apply (loop_follows_spec lines lines 0 initial eq_refl (drop_0 _) Hall).
Qed.

Lemma two_passes_equal_loop_witness :
  while_loop (length block_doc) block_doc initial
  = Done (spec_stages_3_4 block_doc)
  ∧ spec_stages_3_4 block_doc = [s_ "keep1"; s_ "keep2"].
Proof.
  split; [|vm_compute; reflexivity].
  apply (proj2 (two_passes_equal_loop_iff block_doc)).
  intros k s Hk Hsk Hsep.
  do 8 (destruct k as [|k];
        [first [ by vm_compute in Hsep
               | vm_compute in Hk; injection Hk as <-; discriminate Hsk
               | vm_compute; congruence ]|]).
  by vm_compute in Hsep.
Defined.

(** ** What is written *)

Lemma rdrop_while_split {A} (f : A → bool) l :
  ∃ k, l = rdrop_while f l ++ k ∧ Forall (λ x, f x = true) k.
Proof.
  induction l as [|x l (k & Hk & Hall)] using rev_ind; [by exists []|].
  rewrite rdrop_while_snoc. destruct (f x) eqn:Hx.
  - exists (k ++ [x]). split.
    + rewrite app_assoc. by rewrite <- Hk.
    + apply Forall_app. split; [done|]. by repeat constructor.
  - exists []. split; [by rewrite app_nil_r|constructor].
Qed.

(** X5: the loop over the blank lines at the end removes empty lines only,
    and all of them: what the main loop returned is what is written
    followed by empty lines, and what is written does not end with an empty
    line. *)
Theorem trailing_trim_removes_empty_lines (doc : list str) :
  ∃ kept n,
    while_loop (length (prepare doc)) (prepare doc) initial
    = Done (kept ++ replicate n [])
    ∧ process doc = Done kept
    ∧ ∀ l, last kept = Some l → l ≠ [].
Proof.
  destruct (rdrop_while_split is_blank (scan false false (prepare doc)))
    as (k & Hk & Hall).
  exists (normalize doc), (length k). repeat split.
  - rewrite while_loop_scan by (simpl; lia). cbn. rewrite drop_0. f_equal.
    rewrite Hk at 1. unfold normalize. f_equal.
    apply list_eq_same_length with (length k);
      [by rewrite length_replicate|done|].
    intros j x y Hj Hx Hy. apply lookup_replicate in Hy as [-> _].
    pose proof (proj1 (Forall_lookup _ _) Hall j x Hx) as Hb. cbn in Hb.
    rewrite (is_blank_prepared x doc) in Hb; [by apply bool_decide_eq_true in Hb|].
    eapply elem_of_sublist; [|apply (scan_sublist false false)].
    rewrite Hk. apply elem_of_app. right. by eapply list_elem_of_lookup_2.
  - apply process_normalize.
  - intros l Hl ->. by apply rdrop_while_last in Hl.
Qed.

(** X6: every line written is free of trailing whitespace, is left as it is
    by [mask_uuid4s], and is not the end marker. *)
Theorem written_lines_clean (doc : list str) :
  ∃ out,
    process doc = Done out
    ∧ ∀ l, l ∈ out →
        rstrip l = l ∧ mask_uuid4s l = l ∧ l ≠ YB_DATA_END.
Proof.
  exists (normalize doc). split; [apply process_normalize|].
  intros l Hl. split; [by eapply normalize_line_rstripped|]. split.
  - destruct (prepare_elem l doc) as (x & _ & ->).
    + eapply elem_of_sublist; [done|apply normalize_sublist].
    + apply mask_uuid4s_idemp.
  - intros ->. by apply (normalize_no_sentinel doc).
Qed.

(** X7: a document in which, after trimming and masking, no line is the end
    marker and no separator line is immediately followed by the header line
    is trimmed and masked and loses its trailing blank lines, nothing else. *)
Theorem no_marker_no_elision (doc : list str) :
  YB_DATA_END ∉ prepare doc →
  has_opener (prepare doc) = false →
  process doc = Done (rdrop_while is_blank (prepare doc)).
Proof.
  intros Hend Hop. rewrite process_normalize. unfold normalize.
  by rewrite scan_truncate, truncate_no_sentinel, elide_blocks_no_opener.
Qed.

Lemma no_marker_no_elision_witness :
  process [s_ "foo   "; SANITIZER_SEPARATOR_LINE; s_ "bar"; s_ " "; []]
  = Done [s_ "foo"; SANITIZER_SEPARATOR_LINE; s_ "bar"].
Proof.
  refine (no_marker_no_elision
            [s_ "foo   "; SANITIZER_SEPARATOR_LINE; s_ "bar"; s_ " "; []] _ _).
  - vm_compute. intros H.
    repeat (apply elem_of_cons in H as [H|H]; [discriminate H|]).
    by apply elem_of_nil in H.
  - vm_compute. reflexivity.
Defined.

(** *** Blocks *)

Lemma opens_block_not_separator cur rest :
  cur ≠ SANITIZER_SEPARATOR_LINE → opens_block cur rest = false.
Proof. intros H. unfold opens_block. by rewrite bool_decide_eq_false_2. Qed.

Lemma step_skipping js cur :
  cur ≠ SANITIZER_SEPARATOR_LINE → step true js cur false = (true, false, false).
Proof. intros H. unfold step. cbn. by rewrite bool_decide_eq_false_2. Qed.

Lemma step_closes js : step true js SANITIZER_SEPARATOR_LINE false = (false, true, false).
Proof. done. Qed.

(** Lines without separator and end marker are kept in NORMAL. *)
Lemma scan_plain pre rest :
  SANITIZER_SEPARATOR_LINE ∉ pre → YB_DATA_END ∉ pre →
  scan false false (pre ++ rest) = pre ++ scan false false rest.
Proof.
  induction pre as [|cur pre IH]; [done|].
  intros [Hsep Hsep']%not_elem_of_cons [Hend Hend']%not_elem_of_cons.
  cbn [app scan]. rewrite bool_decide_eq_false_2 by done.
  rewrite opens_block_not_separator, step_normal by done. by rewrite IH.
Qed.

(** In SKIPPING, lines without separator are dropped to the end. *)
Lemma scan_skipping_to_end ls :
  SANITIZER_SEPARATOR_LINE ∉ ls → ∀ js, scan true js ls = [].
Proof.
  induction ls as [|cur ls IH]; [done|].
  intros [Hsep Hsep']%not_elem_of_cons js. cbn [scan].
  case_bool_decide; [done|].
  rewrite opens_block_not_separator, step_skipping by done. by apply IH.
Qed.

(** In SKIPPING, the first separator that the header does not follow
    closes the block. *)
Lemma scan_skipping_closes body post :
  SANITIZER_SEPARATOR_LINE ∉ body → YB_DATA_END ∉ body →
  head post ≠ Some SUPPRESSIONS_USED →
  ∀ js, scan true js (body ++ SANITIZER_SEPARATOR_LINE :: post)
        = scan false true post.
Proof.
  intros Hsep Hend Hpost. induction body as [|cur body IH]; intros js.
  - cbn [app scan]. rewrite bool_decide_eq_false_2 by done.
    assert (opens_block SANITIZER_SEPARATOR_LINE post = false) as ->.
    { unfold opens_block. destruct post as [|x post]; [done|].
      rewrite (bool_decide_eq_false_2 (x = _)); [done|]. intros ->. by apply Hpost. }
    by rewrite step_closes.
  - apply not_elem_of_cons in Hsep as [Hsep Hsep'].
    apply not_elem_of_cons in Hend as [Hend Hend'].
    cbn [app scan]. rewrite bool_decide_eq_false_2 by done.
    rewrite opens_block_not_separator, step_skipping by done. by apply IH.
Qed.

Lemma scan_block sk js body post :
  SANITIZER_SEPARATOR_LINE ∉ body → YB_DATA_END ∉ body →
  head post ≠ Some SUPPRESSIONS_USED →
  scan sk js (SANITIZER_SEPARATOR_LINE :: SUPPRESSIONS_USED
              :: body ++ SANITIZER_SEPARATOR_LINE :: post)
  = scan false true post.
Proof.
  intros Hsep Hend Hpost. cbn [scan].
  rewrite bool_decide_eq_false_2 by done.
  assert (opens_block SANITIZER_SEPARATOR_LINE
            (SUPPRESSIONS_USED :: body ++ SANITIZER_SEPARATOR_LINE :: post)
          = true) as -> by done.
  rewrite step_opens.
  refine (scan_skipping_closes (SUPPRESSIONS_USED :: body) post _ _ Hpost false).
  - apply not_elem_of_cons. by split.
  - apply not_elem_of_cons. by split.
Qed.

(** After a block, a blank line is absorbed and any other line is treated
    as in NORMAL. *)
Lemma scan_after_block_blank d post :
  is_blank d = true → scan false true (d :: post) = scan false false post.
Proof.
  intros Hb. destruct (is_blank_not_marker _ Hb) as (Hend & Hsep & _).
  cbn [scan]. rewrite bool_decide_eq_false_2 by done.
  rewrite opens_block_not_separator by done. unfold step. by rewrite Hb.
Qed.

Lemma scan_after_block_other post :
  (∀ x, head post = Some x → is_blank x = false) →
  scan false true post = scan false false post.
Proof.
  destruct post as [|x post]; [done|]. intros Hx. cbn [scan].
  case_bool_decide; [done|]. unfold step. by rewrite (Hx x).
Qed.

Lemma process_prepare doc doc' :
  scan false false (prepare doc) = scan false false (prepare doc') →
  process doc = process doc'.
Proof. intros H. rewrite !process_normalize. unfold normalize. by rewrite H. Qed.

(** X8: a well-formed block is removed together with the blank line after
    it. If, after trimming and masking, the document is [pre], a separator,
    the header, [body], a separator and [post], where [pre] and [body] have
    no separator and no end marker, then the output is that of the document
    [pre ++ post'], where [post'] is [post] without its first line when this
    line is blank, and [post] when it begins with a line that is neither
    blank nor the header (or is empty). *)
Theorem block_removed (doc doc' : list str) (pre body post : list str) :
  prepare doc
  = pre ++ SANITIZER_SEPARATOR_LINE :: SUPPRESSIONS_USED
        :: body ++ SANITIZER_SEPARATOR_LINE :: post →
  SANITIZER_SEPARATOR_LINE ∉ pre → YB_DATA_END ∉ pre →
  SANITIZER_SEPARATOR_LINE ∉ body → YB_DATA_END ∉ body →
  (∀ d post', post = d :: post' → is_blank d = true →
     prepare doc' = pre ++ post' → process doc = process doc')
  ∧ (head post ≠ Some SUPPRESSIONS_USED →
     (∀ x, head post = Some x → is_blank x = false) →
     prepare doc' = pre ++ post → process doc = process doc').
Proof.
  intros Hdoc Hsep Hend Hsep' Hend'. split.
  - intros d post' -> Hb Hdoc'. apply process_prepare.
    rewrite Hdoc, Hdoc', !scan_plain by done.
    rewrite scan_block, scan_after_block_blank; [done..|].
    cbn. intros [= ->]. done.
  - intros Hhead Hx Hdoc'. apply process_prepare.
    rewrite Hdoc, Hdoc', !scan_plain, scan_block by done.
    by rewrite scan_after_block_other.
Qed.

Lemma block_removed_witness :
  process block_doc = process [s_ "keep1"; s_ "keep2"].
Proof.
  refine (proj1 (block_removed block_doc [s_ "keep1"; s_ "keep2"]
                   [s_ "keep1"]
                   [s_ "  count      bytes template";
                    s_ "      1        552 save_ps_display_args"]
                   [[]; s_ "keep2"] _ _ _ _ _)
            [] [s_ "keep2"] _ _ _).
  - vm_compute. reflexivity.
  - vm_compute. intros H.
    repeat (apply elem_of_cons in H as [H|H]; [discriminate H|]).
    by apply elem_of_nil in H.
  - vm_compute. intros H.
    repeat (apply elem_of_cons in H as [H|H]; [discriminate H|]).
    by apply elem_of_nil in H.
  - vm_compute. intros H.
    repeat (apply elem_of_cons in H as [H|H]; [discriminate H|]).
    by apply elem_of_nil in H.
  - vm_compute. intros H.
    repeat (apply elem_of_cons in H as [H|H]; [discriminate H|]).
    by apply elem_of_nil in H.
  - reflexivity.
  - vm_compute. reflexivity.
  - vm_compute. reflexivity.
Defined.

Lemma scan_unterminated post :
  SANITIZER_SEPARATOR_LINE ∉ post →
  ∀ pre sk js,
    scan sk js (pre ++ SANITIZER_SEPARATOR_LINE :: SUPPRESSIONS_USED :: post)
    = scan sk js pre.
Proof.
  intros Hpost. induction pre as [|cur pre IH]; intros sk js.
  - cbn [app scan]. rewrite bool_decide_eq_false_2 by done.
    assert (opens_block SANITIZER_SEPARATOR_LINE (SUPPRESSIONS_USED :: post)
            = true) as -> by done.
    rewrite step_opens.
    refine (scan_skipping_to_end (SUPPRESSIONS_USED :: post) _ false).
    apply not_elem_of_cons. by split.
  - cbn [app scan]. case_bool_decide; [done|].
    assert (opens_block cur
              (pre ++ SANITIZER_SEPARATOR_LINE :: SUPPRESSIONS_USED :: post)
            = opens_block cur pre) as ->.
    { unfold opens_block. destruct pre as [|x pre']; [|done]. cbn [app].
      by rewrite (bool_decide_eq_false_2 (SANITIZER_SEPARATOR_LINE = _)). }
    destruct (step _ _ _ _) as [[sk' js'] [|]]; by rewrite IH.
Qed.

(** X9: a block that is opened and not closed takes the rest of the file
    with it. If, after trimming and masking, the document is [pre], a
    separator, the header and lines without separator, the output is that of
    [pre] alone. *)
Theorem unterminated_block_drops_rest (doc doc' : list str)
    (pre post : list str) :
  prepare doc
  = pre ++ SANITIZER_SEPARATOR_LINE :: SUPPRESSIONS_USED :: post →
  SANITIZER_SEPARATOR_LINE ∉ post →
  prepare doc' = pre →
  process doc = process doc'.
Proof.
  intros Hdoc Hpost Hdoc'. apply process_prepare.
  by rewrite Hdoc, Hdoc', scan_unterminated.
Qed.

Lemma unterminated_block_witness :
  process [s_ "keep1"; SANITIZER_SEPARATOR_LINE; SUPPRESSIONS_USED;
           s_ "  count      bytes template"; s_ "keep2"]
  = process [s_ "keep1"].
Proof.
  refine (unterminated_block_drops_rest _ [s_ "keep1"] [s_ "keep1"]
            [s_ "  count      bytes template"; s_ "keep2"] _ _ _).
  - vm_compute. reflexivity.
  - vm_compute. intros H.
    repeat (apply elem_of_cons in H as [H|H]; [discriminate H|]).
    by apply elem_of_nil in H.
  - vm_compute. reflexivity.
Defined.

(** ** Reading back what was written *)

Lemma universal_newlines_id t : CR ∉ t → universal_newlines t = t.
Proof.
  induction t as [|c t IH]; [done|]. intros [Hc Ht]%not_elem_of_cons.
  cbn [universal_newlines]. rewrite bool_decide_eq_false_2 by congruence.
  by rewrite IH.
Qed.

(** What is read holds no carriage return, and no character that is not in
    the file, the line feed apart. *)
Lemma universal_newlines_chars_below n :
  ∀ t c, length t ≤ n → c ∈ universal_newlines t →
    c ≠ CR ∧ (c = LF ∨ c ∈ t).
Proof.
  induction n as [|n IH]; intros t c Hlen.
  - destruct t; [|simpl in Hlen; lia]. by intros ?%elem_of_nil.
  - destruct t as [|a t]; [by intros ?%elem_of_nil|].
    simpl in Hlen. cbn [universal_newlines]. case_bool_decide as Ha.
    + intros [->|Hc]%elem_of_cons; [split; [by vm_compute|by left]|].
      destruct t as [|b t]; [by apply elem_of_nil in Hc|].
      simpl in Hlen. case_bool_decide as Hb.
      * destruct (IH t c) as [Hne [->|Hin]]; [lia|done| |];
          (split; [done|]); [by left|]. right. by do 2 right.
      * destruct (IH (b :: t) c) as [Hne [->|Hin]]; [simpl; lia|done| |];
          (split; [done|]); [by left|]. right. by right.
    + intros [->|Hc]%elem_of_cons; [split; [done|right; by left]|].
      destruct (IH t c) as [Hne [->|Hin]]; [lia|done| |];
        (split; [done|]); [by left|]. right. by right.
Qed.

Lemma universal_newlines_chars t c :
  c ∈ universal_newlines t → c ≠ CR ∧ (c = LF ∨ c ∈ t).
Proof. by apply (universal_newlines_chars_below (length t)). Qed.

Lemma split_after_LF_chars t l c : l ∈ split_after_LF t → c ∈ l → c ∈ t.
Proof.
  revert l. induction t as [|a t IH]; intros l; [by intros H%elem_of_nil|].
  cbn [split_after_LF]. case_bool_decide as Ha.
  - intros [->|Hl]%elem_of_cons Hc.
    + apply list_elem_of_singleton in Hc as ->. by left.
    + right. by eapply IH.
  - destruct (split_after_LF t) as [|l0 ls] eqn:Hread.
    + intros ->%list_elem_of_singleton Hc.
      apply list_elem_of_singleton in Hc as ->. by left.
    + intros [->|Hl]%elem_of_cons Hc.
      * apply elem_of_cons in Hc as [->|Hc]; [by left|].
        right. apply (IH l0); [by left|done].
      * right. apply (IH l); [by right|done].
Qed.

Lemma readlines_chars t l c :
  l ∈ readlines t → c ∈ l → c ≠ CR ∧ (c = LF ∨ c ∈ t).
Proof.
  intros Hl Hc. apply universal_newlines_chars.
  by eapply split_after_LF_chars.
Qed.

Lemma mask_uuid4s_chars s c : c ∈ mask_uuid4s s → c ∈ s ∨ c ∈ UUID_MASK.
Proof.
  intros H. rewrite mask_uuid4s_scan in H.
  apply list_elem_of_lookup_1 in H as [j Hj].
  destruct (Forall2_lookup_r _ _ _ _ _ (mask_scan_chars s) Hj)
    as (a & Ha & [->|Hmask]); [|by right].
  left. by eapply list_elem_of_lookup_2.
Qed.

(** No line that is written holds a carriage return. *)
Lemma normalize_readlines_no_CR text l :
  l ∈ normalize (readlines text) → CR ∉ l.
Proof.
  intros Hl. destruct (prepare_elem l (readlines text)) as (x & Hx & ->).
  { eapply elem_of_sublist; [done|apply normalize_sublist]. }
  intros [HCR|HCR]%mask_uuid4s_chars.
  - assert (CR ∈ x) as Hin
      by (eapply elem_of_prefix; [done|apply rdrop_while_prefix]).
    by destruct (readlines_chars _ _ _ Hx Hin) as [? _].
  - by pose proof (proj1 (Forall_forall _ _) mask_chars_not_space _ HCR).
Qed.

Lemma join_lines_chars ls c :
  c ∈ join_lines ls → c = LF ∨ ∃ l, l ∈ ls ∧ c ∈ l.
Proof.
  induction ls as [|l ls IH]; [by intros ?%elem_of_nil|].
  destruct ls as [|l2 ls].
  - cbn [join_lines]. intros Hc. right. exists l. split; [by left|done].
  - change (join_lines (l :: l2 :: ls))
      with (l ++ LF :: join_lines (l2 :: ls)).
    intros [Hc|[->|Hc]%elem_of_cons]%elem_of_app.
    + right. exists l. split; [by left|done].
    + by left.
    + destruct (IH Hc) as [->|(l' & Hl' & Hc')]; [by left|].
      right. exists l'. split; [by right|done].
Qed.

Lemma written_no_CR text :
  CR ∉ join_lines (normalize (readlines text)) ++ [LF].
Proof.
  intros [H|H%list_elem_of_singleton]%elem_of_app; [|by vm_compute in H].
  apply join_lines_chars in H as [H|(l & Hl & Hc)]; [by vm_compute in H|].
  by apply (normalize_readlines_no_CR text l).
Qed.

Lemma split_after_LF_line l t :
  LF ∉ l → split_after_LF (l ++ LF :: t) = (l ++ [LF]) :: split_after_LF t.
Proof.
  induction l as [|c l IH]; intros Hl.
  - cbn [app split_after_LF]. by rewrite bool_decide_eq_true_2.
  - apply not_elem_of_cons in Hl as [Hc Hl]. cbn [app split_after_LF].
    rewrite bool_decide_eq_false_2 by congruence. by rewrite IH.
Qed.

Lemma split_after_LF_join ls :
  ls ≠ [] → (∀ l, l ∈ ls → LF ∉ l) →
  split_after_LF (join_lines ls ++ [LF]) = (λ l, l ++ [LF]) <$> ls.
Proof.
  induction ls as [|l ls IH]; [done|]. intros _ Hls.
  destruct ls as [|l2 ls].
  - cbn [join_lines]. rewrite split_after_LF_line by (apply Hls; left). done.
  - change (join_lines (l :: l2 :: ls))
      with (l ++ LF :: join_lines (l2 :: ls)).
    rewrite <- app_assoc. cbn [app].
    rewrite split_after_LF_line by (apply Hls; left).
    rewrite IH; [done|done|]. intros l' Hl'. apply Hls. by right.
Qed.

Lemma prepare_line_feeds ls : prepare ((λ l, l ++ [LF]) <$> ls) = prepare ls.
Proof.
  unfold prepare. induction ls as [|l ls IH]; [done|].
  rewrite !fmap_cons, IH. do 2 f_equal.
  unfold rstrip. by rewrite rdrop_while_snoc.
Qed.

(** X10: the text written, read again as the script reads a file, gives the
    lines written, each with its line feed; running [main] on it is running
    the stages on these lines, and changes nothing when no separator line
    is immediately followed by the header line among them. *)
Theorem rerun_on_written_text (text : str) :
  ∃ out written,
    process (readlines text) = Done out
    ∧ main text = Done written
    ∧ (out ≠ [] → readlines written = (λ l, l ++ [LF]) <$> out)
    ∧ main written = (out' ←' process out; Done (join_lines out' ++ [LF]))
    ∧ (has_opener out = false → main written = Done written).
Proof.
  pose proof (process_normalize (readlines text)) as Hout.
  pose proof (written_no_CR text) as HCR.
  set (out := normalize (readlines text)) in *.
  assert (∀ l, l ∈ out → LF ∉ l) as HLF.
  { intros l Hl.
    destruct (prepare_elem l (readlines text)) as (x & Hx & ->).
    { eapply elem_of_sublist; [done|apply normalize_sublist]. }
    apply mask_uuid4s_no_LF, rstrip_no_LF.
    by apply (proj1 (Forall_forall _ _) (readlines_shape text)). }
  assert (main text = Done (join_lines out ++ [LF])) as Hmain.
  { unfold main. by rewrite Hout. }
  exists out, (join_lines out ++ [LF]).
  assert (out ≠ [] → readlines (join_lines out ++ [LF])
                      = (λ l, l ++ [LF]) <$> out) as Hread.
  { intros Hne. unfold readlines. rewrite universal_newlines_id by done.
    by apply split_after_LF_join. }
  assert (main (join_lines out ++ [LF])
          = (out' ←' process out; Done (join_lines out' ++ [LF]))) as Hre.
  { destruct (decide (out = [])) as [Hnil|Hne]; [by rewrite Hnil|].
    unfold main. rewrite Hread by done.
    f_equal. apply process_prepare. by rewrite prepare_line_feeds. }
  repeat split; [done..|].
  intros Hop. rewrite Hre. unfold out in *.
  rewrite process_normalize, normalize_twice.
  rewrite elide_blocks_no_opener by done.
  replace (rdrop_while is_blank (normalize (readlines text)))
    with (normalize (readlines text))
    by (symmetry; apply rdrop_while_idemp).
  done.
Qed.

(** ** The line of a file that is created *)

Lemma main_returns text :
  main text = Done (join_lines (normalize (readlines text)) ++ [LF]).
Proof. unfold main. by rewrite process_normalize. Qed.

Lemma placeholder_line_chars script c :
  c = LF ∨ c = CR → c ∉ basename script → c ∉ placeholder_line script.
Proof.
  intros Hc Hname. unfold placeholder_line.
  intros [H|[H|H]%elem_of_app]%elem_of_app; [|done|].
  - revert H. destruct Hc as [->| ->]; vm_compute; intros H;
      repeat (apply elem_of_cons in H as [H|H]; [discriminate H|]);
      by apply elem_of_nil in H.
  - revert H. destruct Hc as [->| ->]; vm_compute; intros H;
      repeat (apply elem_of_cons in H as [H|H]; [discriminate H|]);
      by apply elem_of_nil in H.
Qed.

Lemma placeholder_line_rstripped script :
  rstrip (placeholder_line script) = placeholder_line script.
Proof.
  apply rstrip_fixed_iff. intros c. unfold placeholder_line.
  change (s_ " (new test?)") with (s_ " (new test?" ++ [")"%char]).
  rewrite !app_assoc, last_snoc. by intros [= <-].
Qed.

(** A text of one line that is not blank and too long to be the end marker
    comes back trimmed and masked. *)
Lemma main_single_line l :
  LF ∉ l → CR ∉ l → rstrip l = l → length YB_DATA_END < length l →
  main (l ++ [LF]) = Done (mask_uuid4s l ++ [LF]).
Proof.
  intros HLF HCR Hr Hlen. rewrite main_returns. do 2 f_equal.
  unfold readlines. rewrite universal_newlines_id.
  2:{ intros [H|H%list_elem_of_singleton]%elem_of_app;
        [done|by vm_compute in H]. }
  rewrite (split_after_LF_line l []) by done. cbn [split_after_LF].
  unfold normalize.
  change [l ++ [LF]] with ((λ l, l ++ [LF]) <$> [l]).
  rewrite prepare_line_feeds. unfold prepare. cbn [fmap list_fmap].
  rewrite Hr. set (m := mask_uuid4s l).
  assert (length m = length l) as Hm.
  { unfold m. rewrite mask_uuid4s_scan. apply length_mask_scan. }
  assert (m ≠ YB_DATA_END) as Hend by (intros H; rewrite H in Hm; lia).
  assert (is_blank m = false) as Hb.
  { rewrite is_blank_rstripped by by apply rstrip_mask_uuid4s.
    apply bool_decide_eq_false_2. intros H. rewrite H in Hm. simpl in Hm. lia. }
  cbn [scan]. rewrite bool_decide_eq_false_2 by done.
  assert (opens_block m [] = false) as -> by apply andb_false_r.
  rewrite step_normal, rdrop_while_fixed; [done|].
  intros x [= <-]. done.
Qed.

(** X13: the text that the script writes into a file it creates, the line
    [-- Automatically created by <name of the script> (new test?)] and a
    line feed, is then rewritten by [main] to that line, masked, and a line
    feed, when the name of the script holds no line feed and no carriage
    return. *)
Theorem placeholder_file_rewritten (script : str) :
  LF ∉ basename script →
  CR ∉ basename script →
  main (placeholder_line script ++ [LF])
  = Done (mask_uuid4s (placeholder_line script) ++ [LF])
  ∧ length (mask_uuid4s (placeholder_line script))
    = 40 + length (basename script).
Proof.
  intros HLF HCR. split.
  - apply main_single_line.
    + apply placeholder_line_chars; [by left|done].
    + apply placeholder_line_chars; [by right|done].
    + apply placeholder_line_rstripped.
    + unfold placeholder_line. rewrite !length_app. cbn. lia.
  - rewrite mask_uuid4s_scan, length_mask_scan. unfold placeholder_line.
    rewrite !length_app. cbn. lia.
Qed.

Lemma placeholder_file_rewritten_witness :
  main (s_ ("-- Automatically created by pg_regress_postprocess_output.py (new test?)"
            +:+ NL))
  = Done (s_ ("-- Automatically created by pg_regress_postprocess_output.py (new test?)"
              +:+ NL)).
Proof.
  refine (proj1 (placeholder_file_rewritten
                   (s_ "build-support/pg_regress_postprocess_output.py") _ _));
    vm_compute; intros H;
    repeat (apply elem_of_cons in H as [H|H]; [discriminate H|]);
    by apply elem_of_nil in H.
Defined.

(** ** Which paths are created *)

Lemma rfind_no_slash name : "/"%char ∉ name → rfind_slash_succ name = 0.
Proof.
  induction name as [|c name IH]; [done|].
  intros [Hc Hname]%not_elem_of_cons. cbn [rfind_slash_succ].
  rewrite IH by done. by rewrite bool_decide_eq_false_2 by congruence.
Qed.

Lemma rfind_last_slash h name :
  "/"%char ∉ name → rfind_slash_succ (h ++ "/"%char :: name) = S (length h).
Proof.
  intros Hname. induction h as [|c h IH]; cbn [app rfind_slash_succ length].
  - by rewrite rfind_no_slash.
  - by rewrite IH.
Qed.

(** The path is cut behind its last slash. *)
Lemma rfind_slash_succ_spec p :
  ("/"%char ∉ drop (rfind_slash_succ p) p)
  ∧ (rfind_slash_succ p = 0
     ∨ ∃ h, take (rfind_slash_succ p) p = h ++ ["/"%char]).
Proof.
  induction p as [|c p [IHno IHlast]]; [split; [apply not_elem_of_nil|by left]|].
  cbn [rfind_slash_succ]. destruct (rfind_slash_succ p) as [|r] eqn:Hr.
  - case_bool_decide as Hc.
    + split; [done|]. right. exists []. by rewrite Hc.
    + split; [|by left]. rewrite drop_0 in *. by apply not_elem_of_cons.
  - split; [done|]. right. destruct IHlast as [|[h Hh]]; [done|].
    exists (c :: h). cbn [take]. by rewrite Hh.
Qed.

Lemma rdrop_while_replicate {A} (f : A → bool) l x n :
  f x = true → rdrop_while f (l ++ replicate n x) = rdrop_while f l.
Proof.
  intros Hx. induction n as [|n IH]; [by rewrite app_nil_r|].
  rewrite replicate_S_end, app_assoc, rdrop_while_snoc, Hx. done.
Qed.

Lemma all_slashes k : Forall (λ c, is_slash c = true) k → k = replicate (length k) "/"%char.
Proof.
  induction 1 as [|c k Hc _ IH]; [done|]. cbn. rewrite <- IH.
  by apply bool_decide_eq_true in Hc as ->.
Qed.

Lemma suffix_not_all_slashes d n :
  d ++ EXPECTED_DIR_SUFFIX ≠ replicate n "/"%char.
Proof.
  intros H. assert ("d"%char ∈ replicate n "/"%char) as Hd.
  { rewrite <- H. apply elem_of_app. right.
    unfold EXPECTED_DIR_SUFFIX. change (s_ "/regress/expected")
      with (s_ "/regress/expecte" ++ ["d"%char]).
    apply elem_of_app. right. by left. }
  by apply elem_of_replicate in Hd as [? _].
Qed.

(** X14: the directory part of a path ends with [/regress/expected], which is
    what makes the script create a missing file, exactly when the path is a
    directory prefix, [/regress/expected], one or more slashes and a last
    component without slash. *)
Theorem expected_dir_iff (file_path : str) :
  endswith (dirname file_path) EXPECTED_DIR_SUFFIX = true
  ↔ ∃ d n name,
      file_path = d ++ EXPECTED_DIR_SUFFIX ++ replicate (S n) "/"%char ++ name
      ∧ "/"%char ∉ name.
Proof.
  unfold endswith. rewrite bool_decide_eq_true. split.
  - intros Hsuf. unfold dirname in Hsuf.
    destruct (rfind_slash_succ_spec file_path) as [Hname Hlast].
    set (i := rfind_slash_succ file_path) in *.
    set (head := take i file_path) in *.
    assert (file_path = head ++ drop i file_path) as Hp
      by (unfold head; by rewrite take_drop).
    case_bool_decide as Hne; cbn [andb] in Hsuf.
    2:{ rewrite Hne in Hsuf.
        by apply suffix_nil_inv in Hsuf. }
    case_bool_decide as Hsl.
    2:{ destruct Hsuf as [d Hd].
        rewrite Hd in Hsl. by apply suffix_not_all_slashes in Hsl. }
    destruct Hsuf as [d Hd].
    destruct (rdrop_while_split is_slash head) as (k & Hk & Hall).
    rewrite Hd in Hk. apply all_slashes in Hall.
    destruct (length k) as [|n] eqn:Hlen.
    { apply nil_length_inv in Hlen. subst k. rewrite app_nil_r in Hk.
      destruct Hlast as [Hi|[h Hh]].
      - unfold head in Hne. rewrite Hi in Hne. done.
      - fold head in Hh. rewrite Hk in Hh.
        unfold EXPECTED_DIR_SUFFIX in Hh.
        change (s_ "/regress/expected")
          with (s_ "/regress/expecte" ++ ["d"%char]) in Hh.
        rewrite app_assoc in Hh. by apply app_inj_tail in Hh as [_ [=]]. }
    exists d, n, (drop i file_path). split; [|done].
    rewrite Hp at 1. rewrite Hk, Hall. by rewrite <- !app_assoc.
  - intros (d & n & name & -> & Hname).
    unfold dirname.
    assert (d ++ EXPECTED_DIR_SUFFIX ++ replicate (S n) "/"%char ++ name
            = (d ++ EXPECTED_DIR_SUFFIX ++ replicate n "/"%char)
              ++ "/"%char :: name) as Hp.
    { rewrite replicate_S_end, <- !app_assoc. done. }
    rewrite Hp, rfind_last_slash by done.
    set (h := d ++ EXPECTED_DIR_SUFFIX ++ replicate n "/"%char).
    rewrite (cons_middle "/"%char h name), app_assoc.
    rewrite take_app_length' by (rewrite length_app; cbn; lia).
    assert (h ++ ["/"%char]
            = (d ++ EXPECTED_DIR_SUFFIX) ++ replicate (S n) "/"%char) as Hh.
    { unfold h. by rewrite replicate_S_end, <- !app_assoc. }
    rewrite Hh.
    rewrite bool_decide_eq_true_2, bool_decide_eq_true_2.
    + cbn [andb]. rewrite rdrop_while_replicate by done.
      rewrite rdrop_while_fixed; [by exists d|].
      intros c. unfold EXPECTED_DIR_SUFFIX.
      change (s_ "/regress/expected")
        with (s_ "/regress/expecte" ++ ["d"%char]).
      rewrite app_assoc, last_snoc. by intros [= <-].
    + rewrite <- Hh. intros Hall.
      assert ("d"%char ∈ replicate (length (h ++ ["/"%char])) "/"%char) as Hd.
      { rewrite <- Hall, Hh. apply elem_of_app. left.
        apply elem_of_app. right. unfold EXPECTED_DIR_SUFFIX.
        change (s_ "/regress/expected")
          with (s_ "/regress/expecte" ++ ["d"%char]).
        apply elem_of_app. right. by left. }
      by apply elem_of_replicate in Hd as [? _].
    + rewrite <- Hh. by destruct h.
Qed.

Lemma expected_dir_witness :
  endswith (dirname (s_ "pg/regress/expected//yb_char.out"))
    EXPECTED_DIR_SUFFIX = true.
Proof.
  refine (proj2 (expected_dir_iff (s_ "pg/regress/expected//yb_char.out")) _).
  exists (s_ "pg"), 1, (s_ "yb_char.out"). split; [reflexivity|].
  vm_compute. intros H.
  repeat (apply elem_of_cons in H as [H|H]; [discriminate H|]).
  by apply elem_of_nil in H.
Defined.

(** ** Files of blank lines *)

Lemma rstrip_spaces l : Forall (λ c, isspace c = true) l → rstrip l = [].
Proof.
  induction l as [|c l IH] using rev_ind; [done|].
  intros [Hl Hc]%Forall_app. inversion Hc as [|? ? Hc' _]; subst.
  unfold rstrip in *. rewrite rdrop_while_snoc, Hc'. by apply IH.
Qed.

(** X15: a file that holds nothing but whitespace, the empty file among
    them, is rewritten to a single line feed. *)
Theorem whitespace_only_file (text : str) :
  Forall (λ c, isspace c = true) text → main text = Done [LF].
Proof.
  intros Hall. rewrite main_returns. do 2 f_equal.
  assert (prepare (readlines text)
          = replicate (length (readlines text)) []) as Hprep.
  { unfold prepare.
    apply list_eq_same_length with (length (readlines text));
      [by rewrite length_replicate|by rewrite !length_fmap|].
    intros j x y Hj Hx Hy. apply lookup_replicate in Hy as [-> _].
    rewrite !list_lookup_fmap in Hx.
    destruct (readlines text !! j) as [l|] eqn:Hl; [|done].
    injection Hx as <-. rewrite rstrip_spaces; [done|].
    apply Forall_forall. intros c Hc.
    destruct (readlines_chars text l c) as [_ [->|Hin]];
      [by eapply list_elem_of_lookup_2|done|done|].
    by apply (proj1 (Forall_forall _ _) Hall). }
  unfold normalize. rewrite Hprep, scan_truncate.
  rewrite truncate_no_sentinel by (by intros [? _]%elem_of_replicate).
  rewrite elide_blocks_no_opener.
  - generalize (length (readlines text)). intros n.
    induction n as [|n IH]; [done|].
    rewrite replicate_S_end, rdrop_while_snoc. done.
  - generalize (length (readlines text)). intros n.
    induction n as [|n IH]; [done|]. cbn [replicate has_opener].
    rewrite IH. by rewrite opens_block_not_separator.
Qed.

Lemma whitespace_only_file_witness :
  main ([" "; " "]%char ++ [CR; LF; LF; CR] ++ [" "]%char) = Done [LF].
Proof.
  apply whitespace_only_file. vm_compute. repeat constructor.
Defined.
